(** * MicroTBX, Windows port: the critical-section primitive

    A shallow embedding of [source/port/WINDOWS/tbxport.c]: the two port
    functions [TbxPortInterruptsDisable] ("Enter") and
    [TbxPortInterruptsRestore] ("Leave"), the two file-scope variables they
    share, and the Win32 critical-section calls they make. *)

From Stdlib Require Import ZArith Lia List Bool.
From stdpp Require Import base tactics option list.
Import ListNotations.

(** ** Types and constants of [microtbx.h] *)

(** Modelled from the spec: the boolean constants of [microtbx.h], which is
    not part of the sources at hand. The spec calls the initialization flag
    "a single boolean"; the C truth values are used. *)
Definition TBX_TRUE : Z := 1.
Definition TBX_FALSE : Z := 0.

(** Modelled from the spec: the type of the saved-state token ("a fixed
    sentinel value" on this port); its width is declared in a header that
    is not part of the sources at hand, so it is an unbounded integer. *)
Definition tTbxPortCpuSR : Type := Z.

(** The flag is a [volatile uint8_t]: a store keeps the low eight bits. *)
Definition uint8_t (v : Z) : Z := (v mod 256)%Z.

(** A logical context (a Windows thread) is named by a number. *)
Definition thread_id : Type := nat.

(** ** The Win32 critical-section object

    [CRITICAL_SECTION] is opaque to the port. Its documented behaviour is a
    recursive lock: it is unusable until initialized, then free or owned by
    one thread, which may enter it again; [CsHeld t n] is owned by [t] with
    recursion count [S n]. *)
Inductive CRITICAL_SECTION : Type :=
| CsUninit
| CsFree
| CsHeld (OwningThread : thread_id) (nested : nat).

(** What a Win32 call does to the object: it completes, it makes the caller
    wait, or it is a use the documentation forbids. *)
Inductive api_result : Type :=
| ApiDone (cs : CRITICAL_SECTION)
| ApiWait
| ApiMisuse.

(** [InitializeCriticalSection] writes the fields of the object whatever
    they held: the result is a free lock. (Windows documents initializing an
    object that is in use as undefined; the stores are what the call does.
    Sequential callers of the port never get there, see the section on
    construction below.) *)
Definition win_InitializeCriticalSection (cs : CRITICAL_SECTION) : api_result :=
  ApiDone CsFree.

Definition win_EnterCriticalSection (t : thread_id) (cs : CRITICAL_SECTION)
  : api_result :=
  match cs with
  | CsUninit => ApiMisuse
  | CsFree => ApiDone (CsHeld t 0)
  | CsHeld o n => if Nat.eqb o t then ApiDone (CsHeld o (S n)) else ApiWait
  end.

Definition win_LeaveCriticalSection (t : thread_id) (cs : CRITICAL_SECTION)
  : api_result :=
  match cs with
  | CsHeld o n =>
      if Nat.eqb o t
      then ApiDone (match n with O => CsFree | S k => CsHeld o k end)
      else ApiMisuse
  | CsUninit | CsFree => ApiMisuse
  end.

(** The acquisition state of the object: who owns it and how deep. *)
Definition acquisition (cs : CRITICAL_SECTION) : option (thread_id * nat) :=
  match cs with
  | CsHeld o n => Some (o, S n)
  | CsUninit | CsFree => None
  end.

Definition constructed (cs : CRITICAL_SECTION) : bool :=
  match cs with CsUninit => false | _ => true end.

(** [t] would have to wait: another thread owns the object. *)
Definition held_by_other (t : thread_id) (cs : CRITICAL_SECTION) : bool :=
  match cs with
  | CsHeld o _ => negb (Nat.eqb o t)
  | _ => false
  end.

(** ** The state of the port module *)

(** The Win32 calls made so far, oldest first. *)
Inductive event : Type :=
| EvInitialize
| EvEnter (t : thread_id)
| EvLeave (t : thread_id).

Record port_state : Type := mkPort {
  criticalSectionInitialized : Z;
  criticalSection : CRITICAL_SECTION;
  api_log : list event
}.

(** Static storage at program start: the flag is [TBX_FALSE], the object has
    never been passed to [InitializeCriticalSection]. *)
Definition initial_state : port_state :=
  {| criticalSectionInitialized := TBX_FALSE;
     criticalSection := CsUninit;
     api_log := [] |}.

Definition is_initialize (e : event) : bool :=
  match e with EvInitialize => true | _ => false end.

(** How often [InitializeCriticalSection] has been invoked. *)
Definition initialize_calls (s : port_state) : nat :=
  length (filter (fun e => is_initialize e = true) (api_log s)).

(** ** Executing port code *)

(** A piece of port code run by one thread returns a value, waits inside
    [EnterCriticalSection], stops in the assertion, or misuses the Win32
    interface. Each outcome carries the module state at that point. *)
Inductive outcome (A : Type) : Type :=
| Returned (v : A) (s : port_state)
| Blocked (s : port_state)
| AssertFailed (s : port_state)
| Misuse (s : port_state).
Arguments Returned {A} v s.
Arguments Blocked {A} s.
Arguments AssertFailed {A} s.
Arguments Misuse {A} s.

Definition outcome_state {A : Type} (o : outcome A) : port_state :=
  match o with
  | Returned _ s | Blocked s | AssertFailed s | Misuse s => s
  end.

Definition port (A : Type) : Type := port_state -> outcome A.

Definition ret {A : Type} (v : A) : port A := fun s => Returned v s.

Definition bind {A B : Type} (c : port A) (k : A -> port B) : port B :=
  fun s =>
    match c s with
    | Returned v s' => k v s'
    | Blocked s' => Blocked s'
    | AssertFailed s' => AssertFailed s'
    | Misuse s' => Misuse s'
    end.

Notation "x <- c ;; k" := (bind c (fun x => k))
  (at level 100, c at next level, right associativity).
Notation "c ;;; k" := (bind c (fun _ => k))
  (at level 100, right associativity).

Definition load_flag : port Z :=
  fun s => Returned (criticalSectionInitialized s) s.

Definition store_flag (v : Z) : port unit :=
  fun s => Returned tt {| criticalSectionInitialized := uint8_t v;
                          criticalSection := criticalSection s;
                          api_log := api_log s |}.

(** A Win32 call on [&criticalSection]. *)
Definition api_call (ev : event) (f : CRITICAL_SECTION -> api_result)
  : port unit :=
  fun s =>
    match f (criticalSection s) with
    | ApiDone cs' =>
        Returned tt {| criticalSectionInitialized := criticalSectionInitialized s;
                       criticalSection := cs';
                       api_log := api_log s ++ [ev] |}
    | ApiWait => Blocked s
    | ApiMisuse => Misuse s
    end.

Definition InitializeCriticalSection : port unit :=
  api_call EvInitialize win_InitializeCriticalSection.

Definition EnterCriticalSection (t : thread_id) : port unit :=
  api_call (EvEnter t) (win_EnterCriticalSection t).

Definition LeaveCriticalSection (t : thread_id) : port unit :=
  api_call (EvLeave t) (win_LeaveCriticalSection t).

(** Modelled from the spec: the [TBX_ASSERT] macro of [microtbx.h], which is
    not part of the sources at hand. The spec describes "an assertion-style
    fatal check": a false condition is reported and execution does not
    continue. *)
Definition TBX_ASSERT (cond : bool) : port unit :=
  fun s => if cond then Returned tt s else AssertFailed s.

(** Modelled from the spec: the [TBX_UNUSED_ARG] macro of [microtbx.h]; it
    marks a parameter as unused and does nothing. *)
Definition TBX_UNUSED_ARG {A : Type} (x : A) : port unit := ret tt.

(** ** The two port functions *)

Definition TbxPortInterruptsDisable (t : thread_id) : port tTbxPortCpuSR :=
  let result := 0%Z in
  flag <- load_flag ;;
  (if Z.eqb flag TBX_FALSE
   then InitializeCriticalSection ;;; store_flag TBX_TRUE
   else ret tt) ;;;
  EnterCriticalSection t ;;;
  ret result.

Definition TbxPortInterruptsRestore (t : thread_id) (prev_cpu_sr : tTbxPortCpuSR)
  : port unit :=
  TBX_UNUSED_ARG prev_cpu_sr ;;;
  flag <- load_flag ;;
  TBX_ASSERT (Z.eqb flag TBX_TRUE) ;;;
  LeaveCriticalSection t.

(** The state [TbxPortInterruptsDisable] reaches before it enters. *)
Definition after_first_use (s : port_state) : port_state :=
  if Z.eqb (criticalSectionInitialized s) TBX_FALSE
  then {| criticalSectionInitialized := uint8_t TBX_TRUE;
          criticalSection := CsFree;
          api_log := api_log s ++ [EvInitialize] |}
  else s.

(** ** Sequential call histories *)

Inductive call : Type :=
| Enter (t : thread_id)
| Leave (t : thread_id) (token : tTbxPortCpuSR).

Definition is_enter (c : call) : bool :=
  match c with Enter _ => true | Leave _ _ => false end.

Definition run_call (c : call) : port unit :=
  match c with
  | Enter t => TbxPortInterruptsDisable t ;;; ret tt
  | Leave t token => TbxPortInterruptsRestore t token
  end.

(** The calls of a history run one after the other; the history ends at the
    first call that does not return. *)
Fixpoint run (calls : list call) : port unit :=
  match calls with
  | [] => ret tt
  | c :: rest => run_call c ;;; run rest
  end.

Definition reachable (s : port_state) : Prop :=
  exists calls, run calls initial_state = Returned tt s.

(** The flag and the object agree: the flag is one of the two constants and
    is [TBX_TRUE] exactly when the object has been initialized. *)
Definition port_inv (s : port_state) : Prop :=
  (criticalSectionInitialized s = TBX_FALSE /\ criticalSection s = CsUninit) \/
  (criticalSectionInitialized s = TBX_TRUE /\ criticalSection s <> CsUninit).

(** A history in which every [Leave] of a thread closes an [Enter] that the
    same thread has open; [depth t] counts the sections [t] has open. *)
Definition bump (t : thread_id) (delta : nat -> nat) (depth : thread_id -> nat)
  : thread_id -> nat :=
  fun u => if Nat.eqb u t then delta (depth u) else depth u.

Fixpoint well_paired (depth : thread_id -> nat) (calls : list call) : bool :=
  match calls with
  | [] => true
  | Enter t :: rest => well_paired (bump t S depth) rest
  | Leave t _ :: rest =>
      match depth t with
      | O => false
      | S _ => well_paired (bump t Nat.pred depth) rest
      end
  end.

(** The open sections are those the object accounts for. *)
Definition depth_matches (depth : thread_id -> nat) (cs : CRITICAL_SECTION)
  : Prop :=
  match cs with
  | CsHeld o n => depth o = S n /\ forall u, u <> o -> depth u = 0
  | CsUninit | CsFree => forall u, depth u = 0
  end.

Definition is_error {A : Type} (o : outcome A) : bool :=
  match o with
  | AssertFailed _ | Misuse _ => true
  | Returned _ _ | Blocked _ => false
  end.

(** The flag and the number of [InitializeCriticalSection] calls go
    together; [entered] tells whether an Enter call has run. *)
Definition linked (entered : bool) (s : port_state) : Prop :=
  criticalSectionInitialized s = (if entered then TBX_TRUE else TBX_FALSE) /\
  initialize_calls s = (if entered then 1 else 0).

(** How many sections [t] has open according to the object. *)
Definition own_depth (t : thread_id) (cs : CRITICAL_SECTION) : nat :=
  match cs with
  | CsHeld o n => if Nat.eqb o t then S n else 0
  | CsUninit | CsFree => 0
  end.

(** The object after [t] has gone back to [d] open sections. *)
Definition release_to (t : thread_id) (d : nat) : CRITICAL_SECTION :=
  match d with
  | O => CsFree
  | S k => CsHeld t k
  end.

(** ** Concurrent callers

    Threads are preempted between the statements of the port functions.
    Each thread runs the loop of the lost-update test: [todo] times
    [sr = TbxPortInterruptsDisable(); tmp = counter; counter = tmp + 1;
    TbxPortInterruptsRestore(sr);]. A program point names the statement the
    thread executes next. *)
Inductive program_point : Type :=
| PcLoop        (* loop head: another iteration, or finished *)
| PcDisTest     (* if (criticalSectionInitialized == TBX_FALSE) *)
| PcDisInit     (* InitializeCriticalSection(&criticalSection) *)
| PcDisSet      (* criticalSectionInitialized = TBX_TRUE *)
| PcDisEnter    (* EnterCriticalSection(&criticalSection) *)
| PcDisReturn   (* return result *)
| PcRead        (* tmp = counter *)
| PcWrite       (* counter = tmp + 1 *)
| PcResAssert   (* TBX_ASSERT(criticalSectionInitialized == TBX_TRUE) *)
| PcResLeave    (* LeaveCriticalSection(&criticalSection) *)
| PcStopped.    (* stopped in the assertion or after a misuse *)

Record thread : Type := mkThread {
  pc : program_point;
  todo : nat;
  result : tTbxPortCpuSR;
  sr : tTbxPortCpuSR;
  tmp : nat
}.

Record shared : Type := mkShared {
  port_of : port_state;
  counter : nat
}.

Record config : Type := mkConfig {
  mem : shared;
  threads : list thread
}.

Definition goto (l : program_point) (th : thread) : thread :=
  {| pc := l; todo := todo th; result := result th; sr := sr th; tmp := tmp th |}.

(** One statement of the port run on the shared module state: the thread
    moves on when it completes, stays where it is while it has to wait, and
    stops when the assertion fires or the interface is misused. *)
Definition port_step {A : Type} (c : port A) (next : A -> thread)
  (th : thread) (m : shared) : thread * shared :=
  match c (port_of m) with
  | Returned v p => (next v, {| port_of := p; counter := counter m |})
  | Blocked _ => (th, m)
  | AssertFailed p | Misuse p =>
      (goto PcStopped th, {| port_of := p; counter := counter m |})
  end.

Definition thread_step (t : thread_id) (th : thread) (m : shared)
  : thread * shared :=
  match pc th with
  | PcLoop =>
      match todo th with
      | O => (th, m)
      | S k => ({| pc := PcDisTest; todo := k; result := 0%Z;
                   sr := sr th; tmp := tmp th |}, m)
      end
  | PcDisTest =>
      port_step load_flag
        (fun flag => if Z.eqb flag TBX_FALSE
                     then goto PcDisInit th else goto PcDisEnter th) th m
  | PcDisInit =>
      port_step InitializeCriticalSection (fun _ => goto PcDisSet th) th m
  | PcDisSet =>
      port_step (store_flag TBX_TRUE) (fun _ => goto PcDisEnter th) th m
  | PcDisEnter =>
      port_step (EnterCriticalSection t) (fun _ => goto PcDisReturn th) th m
  | PcDisReturn =>
      ({| pc := PcRead; todo := todo th; result := result th;
          sr := result th; tmp := tmp th |}, m)
  | PcRead =>
      ({| pc := PcWrite; todo := todo th; result := result th;
          sr := sr th; tmp := counter m |}, m)
  | PcWrite =>
      (goto PcResAssert th, {| port_of := port_of m; counter := tmp th + 1 |})
  | PcResAssert =>
      port_step (TBX_UNUSED_ARG (sr th) ;;; flag <- load_flag ;;
                 TBX_ASSERT (Z.eqb flag TBX_TRUE))
        (fun _ => goto PcResLeave th) th m
  | PcResLeave =>
      port_step (LeaveCriticalSection t) (fun _ => goto PcLoop th) th m
  | PcStopped => (th, m)
  end.

(** The scheduler lets thread [t] run one statement. *)
Definition step (t : thread_id) (c : config) : config :=
  match threads c !! t with
  | Some th =>
      let '(th', m') := thread_step t th (mem c) in
      {| mem := m'; threads := <[t := th']> (threads c) |}
  | None => c
  end.

(** A schedule lists which thread runs next. *)
Fixpoint exec (schedule : list thread_id) (c : config) : config :=
  match schedule with
  | [] => c
  | t :: rest => exec rest (step t c)
  end.

Definition new_thread (M : nat) : thread :=
  {| pc := PcLoop; todo := M; result := 0%Z; sr := 0%Z; tmp := 0 |}.

(** [N] threads about to increment the counter [M] times each. *)
Definition start_config (p : port_state) (N M : nat) : config :=
  {| mem := {| port_of := p; counter := 0 |};
     threads := replicate N (new_thread M) |}.

(** The thread is between its [EnterCriticalSection] and its
    [LeaveCriticalSection]. *)
Definition in_section (l : program_point) : bool :=
  match l with
  | PcDisReturn | PcRead | PcWrite | PcResAssert | PcResLeave => true
  | _ => false
  end.

Definition mutual_exclusion (c : config) : Prop :=
  forall i j thi thj,
    threads c !! i = Some thi -> threads c !! j = Some thj ->
    in_section (pc thi) = true -> in_section (pc thj) = true -> i = j.

Definition finished (th : thread) : bool :=
  match pc th, todo th with
  | PcLoop, O => true
  | _, _ => false
  end.

Definition all_finished (c : config) : bool := forallb finished (threads c).

(** The increments a thread still owes: the iterations it has not started
    and the one it is in, until its store to the counter. *)
Definition owes (l : program_point) : nat :=
  match l with
  | PcDisTest | PcDisInit | PcDisSet | PcDisEnter | PcDisReturn
  | PcRead | PcWrite => 1
  | PcLoop | PcResAssert | PcResLeave | PcStopped => 0
  end.

Definition pending (th : thread) : nat := todo th + owes (pc th).

Definition total_pending (ths : list thread) : nat :=
  sum_list_with pending ths.

(** What holds of thread [i] while the object is constructed: it is not in
    the first-use branch and has not stopped, it is between its
    [EnterCriticalSection] and [LeaveCriticalSection] exactly when it owns
    the object, once, and what it read is still the counter when it is about
    to store. *)
Definition thread_inv (cs : CRITICAL_SECTION) (cnt : nat) (i : thread_id)
  (th : thread) : Prop :=
  match pc th with
  | PcDisInit | PcDisSet | PcStopped => False
  | _ => True
  end /\
  (in_section (pc th) = true -> cs = CsHeld i 0) /\
  (forall n, cs = CsHeld i n -> in_section (pc th) = true) /\
  (pc th = PcWrite -> tmp th = cnt).

Definition conc_inv (total : nat) (c : config) : Prop :=
  criticalSectionInitialized (port_of (mem c)) = TBX_TRUE /\
  criticalSection (port_of (mem c)) <> CsUninit /\
  (forall i th, threads c !! i = Some th ->
     thread_inv (criticalSection (port_of (mem c))) (counter (mem c)) i th) /\
  counter (mem c) + total_pending (threads c) = total.

(** The statements a thread executes one by one add up to the port
    functions. *)
Fixpoint thread_run (k : nat) (t : thread_id) (x : thread * shared)
  : thread * shared :=
  match k with
  | O => x
  | S k' => thread_run k' t (thread_step t (fst x) (snd x))
  end.

(** Two threads take turns, statement by statement. *)
Definition alternate (k : nat) : list thread_id :=
  concat (repeat [0; 1] k).

(** Two threads that use the port for the first time at the same moment. *)
Definition race_schedule : list thread_id :=
  [0; 1; 0; 1; 0; 0; 0; 1; 1; 1].

Definition race_increments : list thread_id := [0; 1; 0; 1; 0; 1].

(** A port state after start-up: one Enter/Leave pair has run. *)
Definition started_port : port_state :=
  mkPort TBX_TRUE CsFree [EvInitialize; EvEnter 0; EvLeave 0].

(** ** Bookkeeping over the log and the schedule *)

Definition is_enter_by (t : thread_id) (e : event) : bool :=
  match e with EvEnter u => Nat.eqb u t | _ => false end.

Definition is_leave_by (t : thread_id) (e : event) : bool :=
  match e with EvLeave u => Nat.eqb u t | _ => false end.

(** How often thread [t] has completed [EnterCriticalSection] and
    [LeaveCriticalSection]. *)
Definition enter_calls (t : thread_id) (s : port_state) : nat :=
  length (filter (fun e => is_enter_by t e = true) (api_log s)).

Definition leave_calls (t : thread_id) (s : port_state) : nat :=
  length (filter (fun e => is_leave_by t e = true) (api_log s)).

(** The completed calls of every thread account for its ownership. *)
Definition balanced (s : port_state) : Prop :=
  forall t, enter_calls t s =
            leave_calls t s + own_depth t (criticalSection s).

(** Between calls: with the flag [TBX_FALSE] no Win32 call has been made
    yet, and with the flag [TBX_TRUE] the first one made is
    [InitializeCriticalSection]. *)
Definition constructed_first (s : port_state) : Prop :=
  (criticalSectionInitialized s = TBX_FALSE /\ api_log s = []) \/
  (criticalSectionInitialized s = TBX_TRUE /\
   exists rest, api_log s = EvInitialize :: rest).

(** What one statement of thread [t] may do to the module state once the
    object is constructed: nothing, take the free object, or give it back. *)
Definition port_change (t : thread_id) (p p' : port_state) : Prop :=
  p' = p \/
  (criticalSection p = CsFree /\
   p' = {| criticalSectionInitialized := criticalSectionInitialized p;
           criticalSection := CsHeld t 0;
           api_log := api_log p ++ [EvEnter t] |}) \/
  (criticalSection p = CsHeld t 0 /\
   p' = {| criticalSectionInitialized := criticalSectionInitialized p;
           criticalSection := CsFree;
           api_log := api_log p ++ [EvLeave t] |}).

(** An upper bound on the statements a thread has still to execute: those
    left of the iteration it is in, and ten for each iteration to come. *)
Definition statements_left (l : program_point) : nat :=
  match l with
  | PcLoop | PcStopped => 0
  | PcDisTest => 9
  | PcDisInit => 8
  | PcDisSet => 7
  | PcDisEnter => 6
  | PcDisReturn => 5
  | PcRead => 4
  | PcWrite => 3
  | PcResAssert => 2
  | PcResLeave => 1
  end.

Definition work (th : thread) : nat := 10 * todo th + statements_left (pc th).

Definition total_work (c : config) : nat := sum_list_with work (threads c).

(** The owner of the object is one of the threads of the configuration. *)
Definition owner_listed (c : config) : Prop :=
  forall o n, criticalSection (port_of (mem c)) = CsHeld o n ->
              o < length (threads c).

(** The open sections of every thread after a history. *)
Fixpoint depth_after (depth : thread_id -> nat) (calls : list call)
  : thread_id -> nat :=
  match calls with
  | [] => depth
  | Enter t :: rest => depth_after (bump t S depth) rest
  | Leave t _ :: rest => depth_after (bump t Nat.pred depth) rest
  end.

(** ** The first use under preemption *)

(** The thread is inside the first-use branch of [TbxPortInterruptsDisable]:
    it has found the flag [TBX_FALSE] and has not yet stored [TBX_TRUE]. *)
Definition constructing (th : thread) : bool :=
  match pc th with
  | PcDisInit | PcDisSet => true
  | _ => false
  end.

(** How many threads are inside the first-use branch. *)
Definition constructors (c : config) : nat :=
  sum_list_with (fun th => if constructing th then 1 else 0) (threads c).

(** In no configuration along the schedule are two threads inside the
    first-use branch together. *)
Fixpoint serial_first_use (schedule : list thread_id) (c : config) : bool :=
  Nat.leb (constructors c) 1 &&
  match schedule with
  | [] => true
  | t :: rest => serial_first_use rest (step t c)
  end.

(** The module state nobody is using: as at program start, or constructed
    and free. *)
Definition idle_port (p : port_state) : Prop :=
  (criticalSectionInitialized p = TBX_FALSE /\ criticalSection p = CsUninit) \/
  (criticalSectionInitialized p = TBX_TRUE /\ criticalSection p = CsFree).

(** What holds of a thread while the flag is still [TBX_FALSE]: it has not
    got past the first-use branch, and the object is constructed when the
    thread is about to store the flag. *)
Definition pre_thread (cs : CRITICAL_SECTION) (th : thread) : Prop :=
  match pc th with
  | PcLoop | PcDisTest | PcDisInit => True
  | PcDisSet => cs = CsFree
  | _ => False
  end.

Definition pre_inv (total : nat) (c : config) : Prop :=
  criticalSectionInitialized (port_of (mem c)) = TBX_FALSE /\
  (forall i th, threads c !! i = Some th ->
     pre_thread (criticalSection (port_of (mem c))) th) /\
  counter (mem c) + total_pending (threads c) = total.

(** The first thread performs its first Enter alone, then both run. *)
Definition first_enter_alone : list thread_id :=
  [0; 0; 0; 0; 0] ++ alternate 40.

(** ** Proof automation *)

Ltac thread_inv_now :=
  repeat split; cbn [pc tmp in_section goto]; intros;
  cbn [port_of counter criticalSection] in *;
  try discriminate; try congruence; eauto.

Ltac pending_now :=
  unfold pending, goto; cbn [pc todo owes counter]; lia.

(** A statement that touches neither the object nor the counter. *)
Ltac local_statement update Hinv Hl :=
  eapply update;
  [ exact Hinv | exact Hl | assumption | assumption | thread_inv_now
  | cbn [port_of counter]; eauto | pending_now ].

(** * Examples *)

Example disable_first_use :
  TbxPortInterruptsDisable 7 initial_state =
  Returned 0%Z (mkPort TBX_TRUE (CsHeld 7 0) [EvInitialize; EvEnter 7]).
Proof. reflexivity. Qed.

Example restore_first_use :
  TbxPortInterruptsRestore 7 0%Z initial_state = AssertFailed initial_state.
Proof. reflexivity. Qed.

Example nested_twice :
  run [Enter 3; Enter 3; Leave 3 0%Z; Leave 3 0%Z] initial_state =
  Returned tt (mkPort TBX_TRUE CsFree
                 [EvInitialize; EvEnter 3; EvEnter 3; EvLeave 3; EvLeave 3]).
Proof. reflexivity. Qed.

Example contended_enter :
  run [Enter 1; Enter 2] initial_state =
  Blocked (mkPort TBX_TRUE (CsHeld 1 0) [EvInitialize; EvEnter 1]).
Proof. reflexivity. Qed.

Example race_both_inside :
  map pc (threads (exec race_schedule (start_config initial_state 2 1))) =
  [PcDisReturn; PcDisReturn].
Proof. reflexivity. Qed.

Example race_lost_update :
  map pc (threads (exec (race_schedule ++ race_increments)
                     (start_config initial_state 2 1))) =
  [PcResAssert; PcResAssert].
Proof. reflexivity. Qed.

(** * The port functions, case by case *)

Lemma TbxPortInterruptsDisable_eq (t : thread_id) (s : port_state) :
  TbxPortInterruptsDisable t s =
  let s1 := after_first_use s in
  match win_EnterCriticalSection t (criticalSection s1) with
  | ApiDone cs' =>
      Returned 0%Z {| criticalSectionInitialized := criticalSectionInitialized s1;
                      criticalSection := cs';
                      api_log := api_log s1 ++ [EvEnter t] |}
  | ApiWait => Blocked s1
  | ApiMisuse => Misuse s1
  end.
Proof.
  unfold TbxPortInterruptsDisable, after_first_use, bind, load_flag.
  destruct (Z.eqb (criticalSectionInitialized s) TBX_FALSE); cbn;
    [reflexivity|].
  unfold EnterCriticalSection, api_call.
  destruct (win_EnterCriticalSection t (criticalSection s)); reflexivity.
Qed.

Lemma TbxPortInterruptsRestore_eq (t : thread_id) (token : tTbxPortCpuSR)
  (s : port_state) :
  TbxPortInterruptsRestore t token s =
  if Z.eqb (criticalSectionInitialized s) TBX_TRUE
  then match win_LeaveCriticalSection t (criticalSection s) with
       | ApiDone cs' =>
           Returned tt {| criticalSectionInitialized := criticalSectionInitialized s;
                          criticalSection := cs';
                          api_log := api_log s ++ [EvLeave t] |}
       | ApiWait => Blocked s
       | ApiMisuse => Misuse s
       end
  else AssertFailed s.
Proof.
  unfold TbxPortInterruptsRestore, TBX_UNUSED_ARG, TBX_ASSERT, bind, ret, load_flag.
  destruct (Z.eqb (criticalSectionInitialized s) TBX_TRUE); [|reflexivity].
  unfold LeaveCriticalSection, api_call.
  destruct (win_LeaveCriticalSection t (criticalSection s)); reflexivity.
Qed.

Lemma win_LeaveCriticalSection_never_waits (t : thread_id) (cs : CRITICAL_SECTION) :
  win_LeaveCriticalSection t cs <> ApiWait.
Proof. destruct cs as [| |o n]; cbn; try discriminate. destruct (Nat.eqb o t); discriminate. Qed.

Lemma run_cons (c : call) (rest : list call) (s : port_state) :
  run (c :: rest) s =
  match run_call c s with
  | Returned _ s1 => run rest s1
  | Blocked s1 => Blocked s1
  | AssertFailed s1 => AssertFailed s1
  | Misuse s1 => Misuse s1
  end.
Proof. reflexivity. Qed.

Lemma run_app (pre post : list call) (s : port_state) :
  run (pre ++ post) s =
  match run pre s with
  | Returned _ s1 => run post s1
  | Blocked s1 => Blocked s1
  | AssertFailed s1 => AssertFailed s1
  | Misuse s1 => Misuse s1
  end.
Proof.
  revert s. induction pre as [|c pre IH]; intros s; [reflexivity|].
  rewrite <- app_comm_cons, !run_cons.
  destruct (run_call c s); auto.
Qed.

Lemma run_call_Enter (t : thread_id) (s : port_state) :
  run_call (Enter t) s =
  match TbxPortInterruptsDisable t s with
  | Returned _ s1 => Returned tt s1
  | Blocked s1 => Blocked s1
  | AssertFailed s1 => AssertFailed s1
  | Misuse s1 => Misuse s1
  end.
Proof. reflexivity. Qed.

(** In a state of [port_inv], Enter either returns the token 0 with the
    object owned by the caller, or waits for another owner. *)
Lemma disable_cases (t : thread_id) (s : port_state) :
  port_inv s ->
  (held_by_other t (criticalSection s) = false /\
   exists cs',
     win_EnterCriticalSection t (criticalSection (after_first_use s)) = ApiDone cs' /\
     TbxPortInterruptsDisable t s =
       Returned 0%Z {| criticalSectionInitialized := TBX_TRUE;
                       criticalSection := cs';
                       api_log := api_log (after_first_use s) ++ [EvEnter t] |}) \/
  (held_by_other t (criticalSection s) = true /\
   criticalSectionInitialized s = TBX_TRUE /\
   TbxPortInterruptsDisable t s = Blocked s).
Proof.
  intros [[Hf Hc]|[Hf Hc]]; rewrite TbxPortInterruptsDisable_eq;
    unfold after_first_use; rewrite Hf; cbn.
  - left. rewrite Hc. split; [reflexivity|]. eexists. split; reflexivity.
  - destruct (criticalSection s) as [| |o n] eqn:E; [congruence| |].
    + left. split; [reflexivity|]. eexists. split; [reflexivity|].
      cbn. rewrite Hf. reflexivity.
    + cbn. destruct (Nat.eqb o t) eqn:Eo.
      * left. split; [reflexivity|]. eexists. split; [reflexivity|].
        cbn. rewrite Hf. reflexivity.
      * right. repeat split; auto.
Qed.

Lemma port_inv_initial : port_inv initial_state.
Proof. left. split; reflexivity. Qed.

Lemma win_EnterCriticalSection_constructed t cs cs' :
  win_EnterCriticalSection t cs = ApiDone cs' -> cs' <> CsUninit.
Proof.
  destruct cs as [| |o n]; cbn; [discriminate| |].
  - intros [= <-]. discriminate.
  - destruct (Nat.eqb o t); [|discriminate]. intros [= <-]. discriminate.
Qed.

Lemma win_LeaveCriticalSection_constructed t cs cs' :
  win_LeaveCriticalSection t cs = ApiDone cs' -> cs <> CsUninit /\ cs' <> CsUninit.
Proof.
  destruct cs as [| |o n]; cbn; try discriminate.
  destruct (Nat.eqb o t); [|discriminate]. intros [= <-].
  split; [discriminate|]. destruct n; discriminate.
Qed.

(** Every call keeps [port_inv], whatever its outcome. *)
Lemma run_call_port_inv (c : call) (s : port_state) :
  port_inv s -> port_inv (outcome_state (run_call c s)).
Proof.
  intros Hinv. destruct c as [t|t token].
  - rewrite run_call_Enter.
    destruct (disable_cases t s Hinv) as [[_ [cs' [He ->]]]|[_ [_ ->]]]; cbn; auto.
    right. cbn. split; [reflexivity|].
    eapply win_EnterCriticalSection_constructed; eauto.
  - cbn [run_call]. rewrite TbxPortInterruptsRestore_eq.
    destruct (Z.eqb (criticalSectionInitialized s) TBX_TRUE) eqn:Ef; [|exact Hinv].
    apply Z.eqb_eq in Ef.
    destruct (win_LeaveCriticalSection t (criticalSection s)) eqn:El; cbn; auto.
    right. cbn. split; [exact Ef|].
    eapply win_LeaveCriticalSection_constructed; eauto.
Qed.

Lemma run_port_inv (calls : list call) (s : port_state) :
  port_inv s -> port_inv (outcome_state (run calls s)).
Proof.
  revert s. induction calls as [|c calls IH]; intros s Hinv; [exact Hinv|].
  rewrite run_cons. pose proof (run_call_port_inv c s Hinv) as H1.
  destruct (run_call c s); cbn in H1 |- *; auto.
Qed.

Lemma reachable_port_inv (s : port_state) : reachable s -> port_inv s.
Proof.
  intros [calls Hrun].
  pose proof (run_port_inv calls initial_state port_inv_initial) as H.
  rewrite Hrun in H. exact H.
Qed.

(** * Leave before any Enter *)

Lemma restore_flag_not_true (t : thread_id) (token : tTbxPortCpuSR) (s : port_state) :
  criticalSectionInitialized s <> TBX_TRUE ->
  TbxPortInterruptsRestore t token s = AssertFailed s.
Proof.
  intros Hf. rewrite TbxPortInterruptsRestore_eq.
  destruct (Z.eqb_spec (criticalSectionInitialized s) TBX_TRUE); [contradiction|reflexivity].
Qed.

(** Leave never writes the flag: a history without Enter leaves it as it was. *)
Lemma run_without_enter_flag (calls : list call) (s0 s : port_state) :
  existsb is_enter calls = false ->
  run calls s0 = Returned tt s ->
  criticalSectionInitialized s = criticalSectionInitialized s0.
Proof.
  revert s0. induction calls as [|c calls IH]; intros s0 Hno Hrun.
  - cbn in Hrun. injection Hrun as <-. reflexivity.
  - cbn in Hno. apply orb_false_iff in Hno as [Hc Hrest].
    destruct c as [t|t token]; [discriminate|].
    rewrite run_cons in Hrun. cbn [run_call] in Hrun.
    rewrite TbxPortInterruptsRestore_eq in Hrun.
    destruct (Z.eqb (criticalSectionInitialized s0) TBX_TRUE); [|discriminate].
    destruct (win_LeaveCriticalSection t (criticalSection s0)); try discriminate.
    apply IH in Hrun; auto.
Qed.

(** C2. In every state reached by a call history that contains no Enter,
    Leave (with any token, from any thread) stops in the assertion: the flag
    is still [TBX_FALSE], [LeaveCriticalSection] is not called and the state
    is the one before the call. *)
Theorem restore_before_any_enter_asserts :
  forall (calls : list call) (s : port_state) (t : thread_id)
         (token : tTbxPortCpuSR),
    existsb is_enter calls = false ->
    run calls initial_state = Returned tt s ->
    criticalSectionInitialized s = TBX_FALSE /\
    TbxPortInterruptsRestore t token s = AssertFailed s.
Proof.
  intros calls s t token Hno Hrun.
  pose proof (run_without_enter_flag calls initial_state s Hno Hrun) as Hf.
  split; [exact Hf|].
  apply restore_flag_not_true. rewrite Hf. discriminate.
Qed.

Lemma restore_before_any_enter_asserts_witness :
  TbxPortInterruptsRestore 4 17%Z initial_state = AssertFailed initial_state.
Proof.
  apply (restore_before_any_enter_asserts [] initial_state 4 17%Z);
    reflexivity.
Defined.

(** * The token *)

(** C3. Enter returns the token 0 and nothing else: whatever the state, a
    returned token is 0; in every state of [port_inv] (so after every call
    history) the call does return 0 unless another thread owns the object,
    and then it waits. First use, nesting depth and what happened before
    make no difference to the value. *)
Theorem disable_returns_fixed_sentinel :
  forall (s : port_state) (t : thread_id),
    (forall v s', TbxPortInterruptsDisable t s = Returned v s' -> v = 0%Z) /\
    (port_inv s ->
     if held_by_other t (criticalSection s)
     then TbxPortInterruptsDisable t s = Blocked s
     else exists s', TbxPortInterruptsDisable t s = Returned 0%Z s').
Proof.
  intros s t. split.
  - intros v s'. rewrite TbxPortInterruptsDisable_eq. cbn zeta.
    destruct (win_EnterCriticalSection t _); [|discriminate..].
    intros [= <- _]. reflexivity.
  - intros Hinv.
    destruct (disable_cases t s Hinv) as [[-> [cs' [_ ->]]]|[-> [_ ->]]];
      [eexists|]; reflexivity.
Qed.

Lemma disable_returns_fixed_sentinel_witness :
  (exists s', TbxPortInterruptsDisable 2 initial_state = Returned 0%Z s') /\
  TbxPortInterruptsDisable 2 (mkPort TBX_TRUE (CsHeld 5 1) []) =
    Blocked (mkPort TBX_TRUE (CsHeld 5 1) []).
Proof.
  split.
  - apply (proj2 (disable_returns_fixed_sentinel initial_state 2)).
    left. split; reflexivity.
  - apply (proj2 (disable_returns_fixed_sentinel
                    (mkPort TBX_TRUE (CsHeld 5 1) []) 2)).
    right. split; [reflexivity|discriminate].
Defined.

(** C8. Leave ignores its token: from the same state, two calls by the same
    thread with different tokens have the same outcome, state and log of
    Win32 calls included. *)
Theorem restore_token_insensitive :
  forall (s : port_state) (t : thread_id) (t1 t2 : tTbxPortCpuSR),
    TbxPortInterruptsRestore t t1 s = TbxPortInterruptsRestore t t2 s.
Proof. intros s t t1 t2. reflexivity. Qed.

(** * Enter has no error path *)

(** C10. Enter never stops in the assertion, in any state. In a state of
    [port_inv] - program start, any nesting depth - it signals no error at
    all: it returns with the flag [TBX_TRUE], or it waits for another owner
    and the flag is [TBX_TRUE] as well. *)
Theorem disable_no_error_path :
  forall (s : port_state) (t : thread_id),
    (forall s', TbxPortInterruptsDisable t s <> AssertFailed s') /\
    (port_inv s ->
     is_error (TbxPortInterruptsDisable t s) = false /\
     criticalSectionInitialized
       (outcome_state (TbxPortInterruptsDisable t s)) = TBX_TRUE /\
     (held_by_other t (criticalSection s) = false ->
      exists s', TbxPortInterruptsDisable t s = Returned 0%Z s')).
Proof.
  intros s t. split.
  - intros s'. rewrite TbxPortInterruptsDisable_eq. cbn zeta.
    destruct (win_EnterCriticalSection t _); discriminate.
  - intros Hinv.
    destruct (disable_cases t s Hinv) as [[Hh [cs' [_ ->]]]|[Hh [Hf ->]]]; cbn.
    + repeat split; eauto.
    + repeat split; auto. rewrite Hh. discriminate.
Qed.

Lemma disable_no_error_path_witness :
  is_error (TbxPortInterruptsDisable 0 initial_state) = false /\
  criticalSectionInitialized
    (outcome_state (TbxPortInterruptsDisable 0 initial_state)) = TBX_TRUE.
Proof.
  pose proof (proj2 (disable_no_error_path initial_state 0) port_inv_initial)
    as [H1 [H2 _]].
  split; assumption.
Defined.

(** * The flag and the object over time *)

Lemma after_first_use_monotone (s : port_state) :
  (criticalSectionInitialized s = TBX_TRUE ->
   criticalSectionInitialized (after_first_use s) = TBX_TRUE) /\
  (constructed (criticalSection s) = true ->
   constructed (criticalSection (after_first_use s)) = true).
Proof.
  unfold after_first_use.
  destruct (Z.eqb (criticalSectionInitialized s) TBX_FALSE); cbn; auto.
Qed.

Lemma run_call_monotone (c : call) (s : port_state) :
  (criticalSectionInitialized s = TBX_TRUE ->
   criticalSectionInitialized (outcome_state (run_call c s)) = TBX_TRUE) /\
  (constructed (criticalSection s) = true ->
   constructed (criticalSection (outcome_state (run_call c s))) = true).
Proof.
  destruct c as [t|t token].
  - rewrite run_call_Enter, TbxPortInterruptsDisable_eq. cbn zeta.
    destruct (after_first_use_monotone s) as [Hf Hc].
    destruct (win_EnterCriticalSection t _) eqn:He; cbn; auto.
    split; [exact Hf|]. intros _.
    apply win_EnterCriticalSection_constructed in He.
    destruct cs; [congruence|reflexivity..].
  - cbn [run_call]. rewrite TbxPortInterruptsRestore_eq.
    destruct (Z.eqb (criticalSectionInitialized s) TBX_TRUE); [|auto].
    destruct (win_LeaveCriticalSection t (criticalSection s)) eqn:El; cbn; auto.
    split; [auto|]. intros _.
    apply win_LeaveCriticalSection_constructed in El as [_ El].
    destruct cs; [congruence|reflexivity..].
Qed.

(** C5. Once the flag is [TBX_TRUE] no history of Enter and Leave calls, by
    any threads with any tokens and however it ends, leaves it different
    from [TBX_TRUE]; and an initialized object stays initialized. This holds
    from every state, so from every reachable one. *)
Theorem initialized_flag_monotone :
  forall (calls : list call) (s : port_state),
    (criticalSectionInitialized s = TBX_TRUE ->
     criticalSectionInitialized (outcome_state (run calls s)) = TBX_TRUE) /\
    (constructed (criticalSection s) = true ->
     constructed (criticalSection (outcome_state (run calls s))) = true).
Proof.
  induction calls as [|c calls IH]; intros s; [cbn; auto|].
  rewrite run_cons.
  destruct (run_call_monotone c s) as [Hf Hc].
  destruct (run_call c s) as [v s1|s1|s1|s1]; cbn in Hf, Hc |- *; auto.
  destruct (IH s1) as [IHf IHc]. split; auto.
Qed.

Lemma initialized_flag_monotone_witness :
  criticalSectionInitialized
    (outcome_state
       (run [Enter 1; Leave 1 0%Z; Leave 1 0%Z; Enter 2] started_port)) =
    TBX_TRUE /\
  constructed
    (criticalSection
       (outcome_state
          (run [Enter 1; Leave 1 0%Z; Leave 1 0%Z; Enter 2] started_port))) =
    true.
Proof.
  destruct (initialized_flag_monotone
              [Enter 1; Leave 1 0%Z; Leave 1 0%Z; Enter 2] started_port)
    as [Hf Hc].
  split; [apply Hf|apply Hc]; reflexivity.
Defined.

(** * What Leave may change *)

Lemma initialize_calls_snoc (p : port_state) (f : Z) (cs : CRITICAL_SECTION)
  (e : event) :
  initialize_calls {| criticalSectionInitialized := f; criticalSection := cs;
                      api_log := api_log p ++ [e] |} =
  initialize_calls p + (if is_initialize e then 1 else 0).
Proof.
  unfold initialize_calls. cbn [api_log].
  rewrite filter_app, length_app. f_equal.
  destruct e; reflexivity.
Qed.

(** C9. In a state whose flag is [TBX_TRUE], Leave either releases one level
    of the caller's ownership - the object changes as
    [LeaveCriticalSection] prescribes and that call is logged - or changes
    nothing at all. The flag keeps its value, the object stays initialized
    when it was, [InitializeCriticalSection] is not called, and the
    assertion does not fire. *)
Theorem restore_frame :
  forall (s : port_state) (t : thread_id) (token : tTbxPortCpuSR),
    criticalSectionInitialized s = TBX_TRUE ->
    criticalSectionInitialized
      (outcome_state (TbxPortInterruptsRestore t token s)) =
      criticalSectionInitialized s /\
    constructed
      (criticalSection (outcome_state (TbxPortInterruptsRestore t token s))) =
      constructed (criticalSection s) /\
    initialize_calls (outcome_state (TbxPortInterruptsRestore t token s)) =
      initialize_calls s /\
    ((exists cs',
        win_LeaveCriticalSection t (criticalSection s) = ApiDone cs' /\
        TbxPortInterruptsRestore t token s =
          Returned tt {| criticalSectionInitialized := criticalSectionInitialized s;
                         criticalSection := cs';
                         api_log := api_log s ++ [EvLeave t] |}) \/
     (win_LeaveCriticalSection t (criticalSection s) = ApiMisuse /\
      TbxPortInterruptsRestore t token s = Misuse s)).
Proof.
  intros s t token Hf.
  rewrite TbxPortInterruptsRestore_eq, Hf. cbn [Z.eqb TBX_TRUE Pos.eqb].
  destruct (win_LeaveCriticalSection t (criticalSection s)) eqn:El.
  - cbn [outcome_state criticalSectionInitialized criticalSection].
    apply win_LeaveCriticalSection_constructed in El as Hc.
    destruct Hc as [Hc Hc'].
    repeat split.
    + destruct cs, (criticalSection s); cbn; congruence.
    + rewrite initialize_calls_snoc. cbn. lia.
    + left. eexists. split; reflexivity.
  - exfalso. eapply win_LeaveCriticalSection_never_waits; eauto.
  - cbn [outcome_state]. split; [exact Hf|]. split; [reflexivity|].
    split; [reflexivity|]. right. split; reflexivity.
Qed.

Lemma restore_frame_witness :
  TbxPortInterruptsRestore 3 0%Z (mkPort TBX_TRUE (CsHeld 3 1) [EvInitialize]) =
  Returned tt (mkPort TBX_TRUE (CsHeld 3 0) [EvInitialize; EvLeave 3]).
Proof.
  destruct (restore_frame (mkPort TBX_TRUE (CsHeld 3 1) [EvInitialize]) 3 0%Z
              eq_refl) as [_ [_ [_ [[cs' [E ->]]|[E _]]]]].
  - cbn in E. injection E as <-. reflexivity.
  - discriminate E.
Defined.

(** * Construction of the object *)

Lemma linked_initial : linked false initial_state.
Proof. split; reflexivity. Qed.

Lemma run_call_linked (b : bool) (c : call) (s : port_state) :
  linked b s -> linked (b || is_enter c) (outcome_state (run_call c s)).
Proof.
  intros [Hf Hn]. destruct c as [t|t token].
  - rewrite run_call_Enter, TbxPortInterruptsDisable_eq. cbn zeta.
    assert (Hl : linked true (after_first_use s)).
    { unfold after_first_use. rewrite Hf. destruct b; cbn.
      - split; assumption.
      - split; [reflexivity|]. rewrite initialize_calls_snoc, Hn. reflexivity. }
    rewrite orb_true_r.
    destruct (win_EnterCriticalSection t _); cbn [outcome_state]; auto.
    destruct Hl as [Hf1 Hn1]. split; [exact Hf1|].
    rewrite initialize_calls_snoc, Hn1. reflexivity.
  - cbn [run_call is_enter]. rewrite orb_false_r.
    rewrite TbxPortInterruptsRestore_eq.
    destruct (Z.eqb (criticalSectionInitialized s) TBX_TRUE); [|split; assumption].
    destruct (win_LeaveCriticalSection t (criticalSection s));
      cbn [outcome_state]; try (split; assumption).
    split; [exact Hf|]. rewrite initialize_calls_snoc, Hn. cbn. lia.
Qed.

Lemma run_linked (calls : list call) (b : bool) (s0 : port_state) :
  linked b s0 ->
  (exists b', linked b' (outcome_state (run calls s0))) /\
  (forall s, run calls s0 = Returned tt s ->
             linked (b || existsb is_enter calls) s).
Proof.
  revert b s0. induction calls as [|c calls IH]; intros b s0 Hl.
  - cbn. split; [eauto|]. intros s [= <-]. rewrite orb_false_r. exact Hl.
  - rewrite run_cons. pose proof (run_call_linked b c s0 Hl) as H1.
    destruct (run_call c s0) as [v s1|s1|s1|s1]; cbn in H1;
      try (split; [eauto|discriminate]).
    destruct (IH _ s1 H1) as [IH1 IH2]. split; [exact IH1|].
    intros s Hs. cbn [existsb]. rewrite orb_assoc. auto.
Qed.

(** C6. Along every sequential call history from program start the object
    is constructed at most once, and by the first Enter call: a call invokes
    [InitializeCriticalSection] exactly once when it is an Enter that no
    Enter precedes, and not at all when it is a later Enter or a Leave. *)
Theorem InitializeCriticalSection_at_most_once :
  (forall calls : list call,
     initialize_calls (outcome_state (run calls initial_state)) <= 1) /\
  (forall (pre : list call) (c : call) (s : port_state),
     run pre initial_state = Returned tt s ->
     initialize_calls (outcome_state (run_call c s)) =
       initialize_calls s +
       (if is_enter c && negb (existsb is_enter pre) then 1 else 0)).
Proof.
  split.
  - intros calls.
    destruct (run_linked calls false initial_state linked_initial)
      as [[b' [_ Hn]] _].
    rewrite Hn. destruct b'; lia.
  - intros pre c s Hrun.
    destruct (run_linked pre false initial_state linked_initial) as [_ Hl].
    specialize (Hl s Hrun). cbn [orb] in Hl.
    pose proof (run_call_linked _ c s Hl) as [_ Hn'].
    destruct Hl as [_ Hn]. rewrite Hn', Hn.
    destruct (existsb is_enter pre), (is_enter c); reflexivity.
Qed.

Lemma InitializeCriticalSection_at_most_once_witness :
  initialize_calls (outcome_state (run_call (Enter 1) initial_state)) = 1 /\
  initialize_calls
    (outcome_state
       (run_call (Enter 2) (mkPort TBX_TRUE CsFree
                              [EvInitialize; EvEnter 1; EvLeave 1]))) = 1.
Proof.
  split.
  - apply (proj2 InitializeCriticalSection_at_most_once [] (Enter 1)
             initial_state).
    reflexivity.
  - apply (proj2 InitializeCriticalSection_at_most_once
             [Enter 1; Leave 1 0%Z] (Enter 2)).
    reflexivity.
Defined.

(** * Nesting *)

Lemma enter_once (t : thread_id) (s : port_state) :
  port_inv s -> held_by_other t (criticalSection s) = false ->
  exists s1,
    run_call (Enter t) s = Returned tt s1 /\
    criticalSectionInitialized s1 = TBX_TRUE /\
    criticalSection s1 = CsHeld t (own_depth t (criticalSection s)).
Proof.
  intros Hinv Hfree. rewrite run_call_Enter.
  destruct (disable_cases t s Hinv) as [[_ [cs' [He ->]]]|[Hh _]];
    [|congruence].
  eexists. split; [reflexivity|]. split; [reflexivity|]. cbn.
  revert He. unfold after_first_use.
  destruct Hinv as [[Hf Hc]|[Hf Hc]]; rewrite Hf; cbn.
  - rewrite Hc. cbn. congruence.
  - destruct (criticalSection s) as [| |o n]; cbn in *; [congruence|congruence|].
    destruct (Nat.eqb_spec o t); [|discriminate]. subst o. congruence.
Qed.

Lemma enter_many (t : thread_id) (k : nat) :
  forall s : port_state,
    port_inv s -> held_by_other t (criticalSection s) = false ->
    exists s1,
      run (repeat (Enter t) (S k)) s = Returned tt s1 /\
      criticalSectionInitialized s1 = TBX_TRUE /\
      criticalSection s1 = CsHeld t (own_depth t (criticalSection s) + k).
Proof.
  induction k as [|k IH]; intros s Hinv Hfree.
  - destruct (enter_once t s Hinv Hfree) as [s1 [Hr [Hf Hc]]].
    exists s1. cbn [repeat]. rewrite run_cons, Hr. cbn.
    rewrite Nat.add_0_r. auto.
  - destruct (enter_once t s Hinv Hfree) as [s1 [Hr [Hf Hc]]].
    assert (Hinv1 : port_inv s1) by (right; split; congruence).
    assert (Hfree1 : held_by_other t (criticalSection s1) = false).
    { rewrite Hc. cbn. rewrite Nat.eqb_refl. reflexivity. }
    destruct (IH s1 Hinv1 Hfree1) as [s2 [Hr2 [Hf2 Hc2]]].
    exists s2. change (repeat (Enter t) (S (S k)))
      with (Enter t :: repeat (Enter t) (S k)).
    rewrite run_cons, Hr. split; [exact Hr2|]. split; [exact Hf2|].
    rewrite Hc2, Hc. cbn. rewrite Nat.eqb_refl. f_equal. lia.
Qed.

Lemma leave_once (t : thread_id) (token : tTbxPortCpuSR) (n : nat)
  (s : port_state) :
  criticalSectionInitialized s = TBX_TRUE ->
  criticalSection s = CsHeld t n ->
  run_call (Leave t token) s =
  Returned tt {| criticalSectionInitialized := TBX_TRUE;
                 criticalSection := release_to t n;
                 api_log := api_log s ++ [EvLeave t] |}.
Proof.
  intros Hf Hc. cbn [run_call].
  rewrite TbxPortInterruptsRestore_eq, Hf, Hc. cbn.
  rewrite Nat.eqb_refl. destruct n; reflexivity.
Qed.

Lemma leave_many (t : thread_id) (d : nat) (tokens : list tTbxPortCpuSR) :
  forall s : port_state,
    criticalSectionInitialized s = TBX_TRUE ->
    criticalSection s = release_to t (d + length tokens) ->
    exists s1,
      run (map (Leave t) tokens) s = Returned tt s1 /\
      criticalSectionInitialized s1 = TBX_TRUE /\
      criticalSection s1 = release_to t d.
Proof.
  induction tokens as [|token tokens IH]; intros s Hf Hc.
  - exists s. cbn in *. rewrite Nat.add_0_r in Hc. auto.
  - cbn [length] in Hc. rewrite Nat.add_succ_r in Hc. cbn [release_to] in Hc.
    cbn [map]. rewrite run_cons, (leave_once t token _ s Hf Hc).
    apply IH; reflexivity.
Qed.

Lemma release_to_own_depth (t : thread_id) (cs : CRITICAL_SECTION) :
  held_by_other t cs = false ->
  acquisition (release_to t (own_depth t cs)) = acquisition cs /\
  (cs <> CsUninit -> release_to t (own_depth t cs) = cs).
Proof.
  destruct cs as [| |o n]; cbn; [split; [reflexivity|congruence] | auto |].
  destruct (Nat.eqb_spec o t); [subst o; cbn; auto | discriminate].
Qed.

(** C4. From every state of [port_inv] in which the calling thread [t] is
    not kept waiting by another owner, [N >= 1] consecutive Enter calls of
    [t] all return - so does every shorter run of them, no inner Enter waits
    for the thread itself - and leave [t] with [N] more open sections; the
    [N] Leave calls that follow, with any tokens, all return and put the
    ownership and nesting depth of the object back to what they were before
    the first Enter. The flag is [TBX_TRUE] afterwards, and when it already
    was before, the object is exactly the one before. *)
Theorem nested_enter_leave_restores :
  forall (N : nat) (s : port_state) (t : thread_id)
         (tokens : list tTbxPortCpuSR),
    1 <= N -> length tokens = N -> port_inv s ->
    held_by_other t (criticalSection s) = false ->
    (forall k, k <= N ->
       exists sk, run (repeat (Enter t) k) s = Returned tt sk) /\
    exists s1 s2,
      run (repeat (Enter t) N) s = Returned tt s1 /\
      acquisition (criticalSection s1) =
        Some (t, own_depth t (criticalSection s) + N) /\
      run (map (Leave t) tokens) s1 = Returned tt s2 /\
      run (repeat (Enter t) N ++ map (Leave t) tokens) s = Returned tt s2 /\
      acquisition (criticalSection s2) = acquisition (criticalSection s) /\
      criticalSectionInitialized s2 = TBX_TRUE /\
      (criticalSectionInitialized s = TBX_TRUE ->
       criticalSection s2 = criticalSection s).
Proof.
  intros N s t tokens HN Hlen Hinv Hfree. split.
  - intros [|k] _; [exists s; reflexivity|].
    destruct (enter_many t k s Hinv Hfree) as [sk [Hr _]]. eauto.
  - destruct N as [|k]; [lia|].
    destruct (enter_many t k s Hinv Hfree) as [s1 [Hr1 [Hf1 Hc1]]].
    destruct (leave_many t (own_depth t (criticalSection s)) tokens s1 Hf1)
      as [s2 [Hr2 [Hf2 Hc2]]].
    { rewrite Hc1, Hlen, Nat.add_succ_r. reflexivity. }
    destruct (release_to_own_depth t (criticalSection s) Hfree) as [Ha He].
    exists s1, s2. split; [exact Hr1|]. split.
    { rewrite Hc1. cbn. do 2 f_equal. lia. }
    split; [exact Hr2|]. split; [rewrite run_app, Hr1; exact Hr2|].
    split; [rewrite Hc2; exact Ha|]. split; [exact Hf2|].
    intros Hf. rewrite Hc2. apply He.
    destruct Hinv as [[Hf' _]|[_ Hc]]; [|exact Hc].
    rewrite Hf in Hf'. discriminate.
Qed.

Lemma nested_enter_leave_restores_witness :
  exists s2,
    run (repeat (Enter 6) 3 ++ map (Leave 6) [0%Z; 0%Z; 0%Z]) initial_state =
      Returned tt s2 /\
    acquisition (criticalSection s2) = None.
Proof.
  destruct (nested_enter_leave_restores 3 initial_state 6 [0%Z; 0%Z; 0%Z])
    as [_ [s1 [s2 [_ [_ [_ [Hr [Ha _]]]]]]]].
  - lia.
  - reflexivity.
  - left. split; reflexivity.
  - reflexivity.
  - exists s2. split; [exact Hr|exact Ha].
Defined.

(** * Correctly paired callers *)

Lemma bump_same t f depth : bump t f depth t = f (depth t).
Proof. unfold bump. rewrite Nat.eqb_refl. reflexivity. Qed.

Lemma bump_other t f depth u : u <> t -> bump t f depth u = depth u.
Proof. intros H. unfold bump. destruct (Nat.eqb_spec u t); congruence. Qed.

(** An Enter of a paired history returns with one more open section, or
    waits. *)
Lemma enter_paired (t : thread_id) (depth : thread_id -> nat) (s : port_state) :
  port_inv s -> depth_matches depth (criticalSection s) ->
  (exists s1, run_call (Enter t) s = Returned tt s1 /\ port_inv s1 /\
              depth_matches (bump t S depth) (criticalSection s1)) \/
  run_call (Enter t) s = Blocked s.
Proof.
  intros Hinv Hd.
  destruct (held_by_other t (criticalSection s)) eqn:Hh.
  - right. rewrite run_call_Enter.
    destruct (disable_cases t s Hinv) as [[Hh' _]|[_ [_ ->]]];
      [congruence|reflexivity].
  - left. destruct (enter_once t s Hinv Hh) as [s1 [Hr [Hf Hc]]].
    exists s1. split; [exact Hr|]. split; [right; split; congruence|].
    rewrite Hc. cbn.
    destruct (criticalSection s) as [| |o n]; cbn in *.
    + split; [rewrite bump_same, Hd; reflexivity|].
      intros u Hu. rewrite bump_other by exact Hu. apply Hd.
    + split; [rewrite bump_same, Hd; reflexivity|].
      intros u Hu. rewrite bump_other by exact Hu. apply Hd.
    + destruct (Nat.eqb_spec o t); [subst o|discriminate].
      destruct Hd as [Hd1 Hd2].
      split; [rewrite bump_same, Hd1; reflexivity|].
      intros u Hu. rewrite bump_other by exact Hu. auto.
Qed.

(** A Leave that closes an open section of its thread returns. *)
Lemma leave_paired (t : thread_id) (token : tTbxPortCpuSR)
  (depth : thread_id -> nat) (s : port_state) :
  port_inv s -> depth_matches depth (criticalSection s) -> depth t <> 0 ->
  exists s1, run_call (Leave t token) s = Returned tt s1 /\ port_inv s1 /\
             depth_matches (bump t Nat.pred depth) (criticalSection s1).
Proof.
  intros Hinv Hd Hopen.
  destruct (criticalSection s) as [| |o n] eqn:Hc; cbn in Hd;
    try (specialize (Hd t); contradiction).
  destruct Hd as [Hd1 Hd2].
  destruct (Nat.eq_dec t o) as [->|Hne]; [|specialize (Hd2 t Hne); contradiction].
  assert (Hf : criticalSectionInitialized s = TBX_TRUE).
  { destruct Hinv as [[_ Hu]|[Hf _]]; [congruence|exact Hf]. }
  rewrite (leave_once o token n s Hf Hc). eexists. split; [reflexivity|].
  split.
  - right. cbn. split; [reflexivity|]. destruct n; discriminate.
  - cbn [criticalSection]. destruct n as [|n]; cbn.
    + intros u. destruct (Nat.eq_dec u o) as [->|Hu].
      * rewrite bump_same, Hd1. reflexivity.
      * rewrite bump_other by exact Hu. auto.
    + split; [rewrite bump_same, Hd1; reflexivity|].
      intros u Hu. rewrite bump_other by exact Hu. auto.
Qed.

Lemma run_well_paired (calls : list call) :
  forall (depth : thread_id -> nat) (s : port_state),
    port_inv s -> depth_matches depth (criticalSection s) ->
    well_paired depth calls = true ->
    is_error (run calls s) = false.
Proof.
  induction calls as [|c calls IH]; intros depth s Hinv Hd Hwp; [reflexivity|].
  rewrite run_cons. destruct c as [t|t token]; cbn [well_paired] in Hwp.
  - destruct (enter_paired t depth s Hinv Hd) as [[s1 [-> [Hinv1 Hd1]]]| ->];
      [eauto|reflexivity].
  - destruct (depth t) as [|k] eqn:Hk; [discriminate|].
    destruct (leave_paired t token depth s Hinv Hd) as [s1 [-> [Hinv1 Hd1]]];
      [congruence|eauto].
Qed.

(** C7. After a call history from program start in which an Enter has
    completed, Leave does not stop in the assertion: the flag is
    [TBX_TRUE]. And in a history where every Leave of a thread closes a
    section that thread has open, run from a state of [port_inv] whose
    object accounts for the open sections, no call reports an error: each
    one returns, or is an Enter that waits for another owner. *)
Theorem restore_never_fails_when_paired :
  (forall (calls : list call) (s : port_state) (t : thread_id)
          (token : tTbxPortCpuSR),
     existsb is_enter calls = true ->
     run calls initial_state = Returned tt s ->
     criticalSectionInitialized s = TBX_TRUE /\
     forall s', TbxPortInterruptsRestore t token s <> AssertFailed s') /\
  (forall (calls : list call) (depth : thread_id -> nat) (s : port_state),
     port_inv s -> depth_matches depth (criticalSection s) ->
     well_paired depth calls = true ->
     is_error (run calls s) = false).
Proof.
  split.
  - intros calls s t token Hent Hrun.
    destruct (run_linked calls false initial_state linked_initial) as [_ Hl].
    destruct (Hl s Hrun) as [Hf _]. rewrite Hent in Hf. cbn in Hf.
    split; [exact Hf|]. intros s'.
    rewrite TbxPortInterruptsRestore_eq, Hf. cbn [Z.eqb TBX_TRUE Pos.eqb].
    destruct (win_LeaveCriticalSection t (criticalSection s)); discriminate.
  - intros calls depth s. apply run_well_paired.
Qed.

Lemma restore_never_fails_when_paired_witness :
  (forall s', TbxPortInterruptsRestore 1 0%Z
                (mkPort TBX_TRUE (CsHeld 1 0) [EvInitialize; EvEnter 1])
              <> AssertFailed s') /\
  is_error (run [Enter 1; Enter 2; Leave 1 0%Z] initial_state) = false /\
  is_error (run [Enter 1; Enter 1; Leave 1 0%Z; Leave 1 0%Z; Enter 2;
                 Leave 2 0%Z] initial_state) = false.
Proof.
  split; [|split].
  - apply (proj1 restore_never_fails_when_paired [Enter 1]); reflexivity.
  - apply (proj2 restore_never_fails_when_paired _ (fun _ => 0)).
    + left. split; reflexivity.
    + intros u. reflexivity.
    + reflexivity.
  - apply (proj2 restore_never_fails_when_paired _ (fun _ => 0)).
    + left. split; reflexivity.
    + intros u. reflexivity.
    + reflexivity.
Defined.

(** * Concurrent callers *)

Lemma total_pending_insert (ths : list thread) :
  forall (t : thread_id) (th th' : thread),
    ths !! t = Some th ->
    total_pending (<[t := th']> ths) + pending th =
    total_pending ths + pending th'.
Proof.
  unfold total_pending.
  induction ths as [|x ths IH]; intros t th th' Hl; [discriminate|].
  destruct t as [|t]; cbn in *.
  - injection Hl as ->. lia.
  - rewrite <- !Nat.add_assoc. f_equal. exact (IH t th th' Hl).
Qed.

Lemma total_pending_replicate (N M : nat) :
  total_pending (replicate N (new_thread M)) = N * M.
Proof.
  unfold total_pending. induction N as [|N IH]; [reflexivity|].
  cbn [replicate sum_list_with]. rewrite IH.
  unfold pending, new_thread. cbn [todo pc owes]. lia.
Qed.

Lemma total_pending_finished (ths : list thread) :
  forallb finished ths = true -> total_pending ths = 0.
Proof.
  unfold total_pending. induction ths as [|x ths IH]; [reflexivity|].
  cbn. intros H. apply andb_true_iff in H as [Hx Hr].
  rewrite (IH Hr). unfold finished, pending in *.
  destruct (pc x), (todo x); try discriminate. reflexivity.
Qed.

Lemma conc_inv_update (total : nat) (m : shared) (ths : list thread)
  (t : thread_id) (th th' : thread) (m' : shared) :
  conc_inv total {| mem := m; threads := ths |} ->
  ths !! t = Some th ->
  criticalSectionInitialized (port_of m') = TBX_TRUE ->
  criticalSection (port_of m') <> CsUninit ->
  thread_inv (criticalSection (port_of m')) (counter m') t th' ->
  (forall j thj, j <> t -> ths !! j = Some thj ->
     thread_inv (criticalSection (port_of m')) (counter m') j thj) ->
  counter m' + pending th' = counter m + pending th ->
  conc_inv total {| mem := m'; threads := <[t := th']> ths |}.
Proof.
  intros [Hf [Hc [Hth Hsum]]] Hl Hf' Hc' Ht Hothers Hcnt.
  cbn [mem threads] in *.
  split; [exact Hf'|]. split; [exact Hc'|]. split.
  - cbn [mem threads]. intros i thi Hi.
    destruct (Nat.eq_dec i t) as [->|Hne].
    + rewrite list_lookup_insert_eq in Hi by (eapply lookup_lt_Some; eauto).
      injection Hi as <-. exact Ht.
    + rewrite list_lookup_insert_ne in Hi by congruence. eauto.
  - cbn [mem threads].
    pose proof (total_pending_insert ths t th th' Hl). lia.
Qed.

Lemma others_outside (cs : CRITICAL_SECTION) (cnt : nat) (t j : thread_id)
  (thj : thread) :
  thread_inv cs cnt j thj -> j <> t -> cs = CsFree \/ cs = CsHeld t 0 ->
  in_section (pc thj) = false.
Proof.
  intros [_ [Hin _]] Hne Hcs.
  destruct (in_section (pc thj)); [|reflexivity].
  specialize (Hin eq_refl). destruct Hcs; congruence.
Qed.

Lemma thread_inv_outside (cs cs' : CRITICAL_SECTION) (cnt cnt' : nat)
  (j : thread_id) (thj : thread) :
  thread_inv cs cnt j thj -> in_section (pc thj) = false ->
  (forall n, cs' <> CsHeld j n) ->
  thread_inv cs' cnt' j thj.
Proof.
  intros [Hpc _] Hout Hcs'. split; [exact Hpc|].
  split; [congruence|]. split; [intros n Hn; destruct (Hcs' n Hn)|].
  intros Hw. rewrite Hw in Hout. discriminate.
Qed.

Lemma step_conc_inv (total : nat) (t : thread_id) (c : config) :
  conc_inv total c -> conc_inv total (step t c).
Proof.
  intros Hinv. unfold step.
  destruct (threads c !! t) as [th|] eqn:Hl; [|exact Hinv].
  pose proof Hinv as [Hf [Hc [Hth Hsum]]].
  pose proof (Hth t th Hl) as Ht.
  pose proof Ht as [Hpc [Hin [Hown Htmp]]].
  destruct c as [[p cnt] ths]. cbn [mem threads port_of counter] in *.
  destruct th as [l td res s0 tm]. cbn [pc tmp] in *.
  unfold thread_step. cbn [pc todo result sr tmp].
  destruct l; cbn [in_section] in *; try contradiction.
  - (* loop head *)
    destruct td as [|k]; local_statement conc_inv_update Hinv Hl.
  - (* the test of the flag finds it set *)
    unfold port_step, load_flag. cbn [port_of]. rewrite Hf.
    cbn [Z.eqb TBX_TRUE TBX_FALSE]. local_statement conc_inv_update Hinv Hl.
  - (* EnterCriticalSection *)
    unfold port_step, EnterCriticalSection, api_call. cbn [port_of].
    destruct (criticalSection p) as [| |o n] eqn:Ecs; [congruence| |].
    + cbn [win_EnterCriticalSection].
      eapply conc_inv_update;
        [ exact Hinv | exact Hl | assumption | discriminate | thread_inv_now
        | | pending_now ].
      intros j thj Hne Hj. cbn [port_of criticalSection counter].
      eapply thread_inv_outside; [eauto| |congruence].
      eapply others_outside; eauto.
    + cbn [win_EnterCriticalSection].
      destruct (Nat.eqb_spec o t) as [->|Hne].
      * specialize (Hown n eq_refl). discriminate.
      * eapply conc_inv_update;
          [ exact Hinv | exact Hl | assumption | cbn [port_of]; congruence
          | cbn [port_of counter]; rewrite Ecs; exact Ht
          | cbn [port_of counter]; rewrite Ecs; eauto | reflexivity ].
  - (* return result *)
    local_statement conc_inv_update Hinv Hl.
  - (* tmp = counter *)
    local_statement conc_inv_update Hinv Hl.
  - (* counter = tmp + 1 *)
    specialize (Hin eq_refl). specialize (Htmp eq_refl). subst tm.
    eapply conc_inv_update;
      [ exact Hinv | exact Hl | assumption | assumption | thread_inv_now
      | | pending_now ].
    intros j thj Hne Hj. cbn [port_of counter].
    eapply thread_inv_outside; [eauto| |].
    + eapply others_outside; eauto.
    + rewrite Hin. congruence.
  - (* TBX_ASSERT *)
    unfold port_step, bind, TBX_UNUSED_ARG, ret, load_flag, TBX_ASSERT.
    cbn [port_of]. rewrite Hf. cbn [Z.eqb TBX_TRUE Pos.eqb].
    local_statement conc_inv_update Hinv Hl.
  - (* LeaveCriticalSection *)
    specialize (Hin eq_refl).
    unfold port_step, LeaveCriticalSection, api_call. cbn [port_of].
    rewrite Hin. cbn [win_LeaveCriticalSection]. rewrite Nat.eqb_refl.
    eapply conc_inv_update;
      [ exact Hinv | exact Hl | assumption | discriminate | thread_inv_now
      | | pending_now ].
    intros j thj Hne Hj. cbn [port_of criticalSection counter].
    eapply thread_inv_outside; [eauto| |discriminate].
    eapply others_outside; eauto.
Qed.

Lemma exec_conc_inv (total : nat) (schedule : list thread_id) :
  forall c : config, conc_inv total c -> conc_inv total (exec schedule c).
Proof.
  induction schedule as [|t rest IH]; intros c Hinv; [exact Hinv|].
  cbn [exec]. apply IH, step_conc_inv, Hinv.
Qed.

Lemma start_conc_inv (p : port_state) (N M : nat) :
  criticalSectionInitialized p = TBX_TRUE ->
  criticalSection p = CsFree ->
  conc_inv (N * M) (start_config p N M).
Proof.
  intros Hf Hc. unfold start_config, conc_inv.
  cbn [mem threads port_of counter]. rewrite Hc.
  split; [exact Hf|]. split; [discriminate|]. split.
  - intros i th Hi. apply lookup_replicate in Hi as [-> _].
    repeat split; cbn; intros; discriminate.
  - rewrite total_pending_replicate. reflexivity.
Qed.

Lemma conc_inv_mutual_exclusion (total : nat) (c : config) :
  conc_inv total c -> mutual_exclusion c.
Proof.
  intros [_ [_ [Hth _]]] i j thi thj Hi Hj Hini Hinj.
  destruct (Hth i thi Hi) as [_ [Hi' _]].
  destruct (Hth j thj Hj) as [_ [Hj' _]].
  specialize (Hi' Hini). specialize (Hj' Hinj). congruence.
Qed.

(** The object is constructed and free after one Enter/Leave pair at
    start-up. *)
Lemma first_pair_constructs (t : thread_id) (token : tTbxPortCpuSR) :
  exists s, run [Enter t; Leave t token] initial_state = Returned tt s /\
            criticalSectionInitialized s = TBX_TRUE /\
            criticalSection s = CsFree.
Proof.
  destruct (enter_once t initial_state port_inv_initial eq_refl)
    as [s1 [Hr [Hf Hc]]].
  cbn [own_depth initial_state criticalSection] in Hc.
  eexists. rewrite run_cons, Hr, run_cons, (leave_once t token 0 s1 Hf Hc).
  split; [reflexivity|]. split; reflexivity.
Qed.

Lemma port_step_eq {A : Type} (c : port A) (next : A -> thread) (th : thread)
  (p : port_state) (cnt : nat) :
  port_step c next th {| port_of := p; counter := cnt |} =
  match c p with
  | Returned v p' => (next v, {| port_of := p'; counter := cnt |})
  | Blocked _ => (th, {| port_of := p; counter := cnt |})
  | AssertFailed p' | Misuse p' =>
      (goto PcStopped th, {| port_of := p'; counter := cnt |})
  end.
Proof. reflexivity. Qed.

Lemma thread_run_disable (t : thread_id) (th : thread) (m : shared) :
  pc th = PcDisTest ->
  match TbxPortInterruptsDisable t (port_of m) with
  | Returned v p' =>
      exists k, thread_run k t (th, m) =
                (goto PcDisReturn th, {| port_of := p'; counter := counter m |})
  | Blocked p' =>
      exists k, thread_run k t (th, m) =
                (goto PcDisEnter th, {| port_of := p'; counter := counter m |})
  | Misuse p' =>
      exists k, thread_run k t (th, m) =
                (goto PcStopped th, {| port_of := p'; counter := counter m |})
  | AssertFailed _ => False
  end.
Proof.
  intros Hpc. rewrite TbxPortInterruptsDisable_eq. unfold after_first_use.
  destruct th as [l td res s0 tm], m as [p cnt]. cbn in Hpc. subst l.
  cbn [port_of counter].
  destruct (Z.eqb (criticalSectionInitialized p) TBX_FALSE) eqn:Ef.
  - cbn. exists 4. cbn. rewrite Ef. reflexivity.
  - cbn zeta.
    destruct (win_EnterCriticalSection t (criticalSection p)) eqn:Ew;
      exists 2; cbn [thread_run fst snd thread_step pc];
      rewrite port_step_eq; cbn [load_flag]; rewrite Ef;
      cbn [fst snd goto thread_step pc]; rewrite port_step_eq;
      unfold EnterCriticalSection, api_call; rewrite Ew; reflexivity.
Qed.

Lemma thread_run_restore (t : thread_id) (th : thread) (m : shared) :
  pc th = PcResAssert ->
  match TbxPortInterruptsRestore t (sr th) (port_of m) with
  | Returned _ p' =>
      thread_run 2 t (th, m) =
      (goto PcLoop th, {| port_of := p'; counter := counter m |})
  | AssertFailed p' =>
      thread_run 1 t (th, m) =
      (goto PcStopped th, {| port_of := p'; counter := counter m |})
  | Misuse p' =>
      thread_run 2 t (th, m) =
      (goto PcStopped th, {| port_of := p'; counter := counter m |})
  | Blocked _ => False
  end.
Proof.
  intros Hpc. rewrite TbxPortInterruptsRestore_eq.
  destruct th as [l td res s0 tm], m as [p cnt]. cbn in Hpc. subst l.
  cbn [port_of counter sr].
  assert (Ha : (TBX_UNUSED_ARG s0 ;;; flag <- load_flag ;;
                TBX_ASSERT (Z.eqb flag TBX_TRUE)) p =
               if Z.eqb (criticalSectionInitialized p) TBX_TRUE
               then Returned tt p else AssertFailed p) by reflexivity.
  destruct (Z.eqb (criticalSectionInitialized p) TBX_TRUE) eqn:Ef.
  - destruct (win_LeaveCriticalSection t (criticalSection p)) eqn:Ew;
      [| exfalso; eapply win_LeaveCriticalSection_never_waits; eauto |];
      cbn [thread_run fst snd thread_step pc sr];
      rewrite port_step_eq, Ha; cbn [fst snd goto thread_step pc]; rewrite port_step_eq;
      unfold LeaveCriticalSection, api_call; rewrite Ew; reflexivity.
  - cbn [thread_run fst snd thread_step pc sr].
    rewrite port_step_eq, Ha. reflexivity.
Qed.

(** C1 as stated fails from program start. At the first use of the port by
    two threads at once both find the flag [TBX_FALSE]; the second
    [InitializeCriticalSection] frees the object the first thread owns, both
    threads are inside their sections together and one of the two
    increments is lost. *)
Lemma first_use_race_breaks_exclusion :
  ~ mutual_exclusion (exec race_schedule (start_config initial_state 2 1)) /\
  total_pending
    (threads (exec (race_schedule ++ race_increments)
                (start_config initial_state 2 1))) = 0 /\
  counter
    (mem (exec (race_schedule ++ race_increments)
            (start_config initial_state 2 1))) = 1 /\
  counter
    (mem (exec (race_schedule ++ race_increments)
            (start_config initial_state 2 1))) <> 2 * 1.
Proof.
  split.
  - intros H.
    specialize (H 0 1 (mkThread PcDisReturn 0 0%Z 0%Z 0)
                  (mkThread PcDisReturn 0 0%Z 0%Z 0)
                  eq_refl eq_refl eq_refl eq_refl).
    discriminate H.
  - split; [reflexivity|]. split; [reflexivity|]. discriminate.
Qed.

Example race_constructs_twice :
  initialize_calls
    (port_of (mem (exec race_schedule (start_config initial_state 2 1)))) = 2.
Proof. reflexivity. Qed.

(** * Further properties of the two port functions *)

(** X1. Along every sequential call history from program start, however it
    ends, the flag is [TBX_FALSE] with the object never initialized, or
    [TBX_TRUE] with the object initialized: the flag tells exactly whether
    the object may be used. *)
Theorem flag_tracks_construction :
  forall calls : list call,
    port_inv (outcome_state (run calls initial_state)).
Proof.
  intros calls. apply run_port_inv. left. split; reflexivity.
Qed.

(** X2. The assertion of Leave guards the construction only, not the
    pairing: with the flag [TBX_TRUE], a Leave of a thread that owns no
    level of the object passes the assertion and reaches
    [LeaveCriticalSection] without ownership. *)
Theorem unmatched_restore_passes_assertion :
  forall (s : port_state) (t : thread_id) (token : tTbxPortCpuSR),
    criticalSectionInitialized s = TBX_TRUE ->
    own_depth t (criticalSection s) = 0 ->
    win_LeaveCriticalSection t (criticalSection s) = ApiMisuse /\
    TbxPortInterruptsRestore t token s = Misuse s /\
    (forall s', TbxPortInterruptsRestore t token s <> AssertFailed s').
Proof.
  intros s t token Hf Hd.
  assert (Hw : win_LeaveCriticalSection t (criticalSection s) = ApiMisuse).
  { destruct (criticalSection s) as [| |o n]; cbn in *; try reflexivity.
    destruct (Nat.eqb o t); [discriminate|reflexivity]. }
  assert (Hr : TbxPortInterruptsRestore t token s = Misuse s).
  { rewrite TbxPortInterruptsRestore_eq, Hf, Hw. reflexivity. }
  split; [exact Hw|]. split; [exact Hr|].
  intros s'. rewrite Hr. discriminate.
Qed.

Lemma unmatched_restore_passes_assertion_witness :
  run [Enter 1; Leave 1 0%Z; Leave 1 0%Z] initial_state =
  Misuse (mkPort TBX_TRUE CsFree [EvInitialize; EvEnter 1; EvLeave 1]) /\
  TbxPortInterruptsRestore 2 0%Z (mkPort TBX_TRUE (CsHeld 1 0) []) =
  Misuse (mkPort TBX_TRUE (CsHeld 1 0) []).
Proof.
  split.
  - change (run [Enter 1; Leave 1 0%Z; Leave 1 0%Z] initial_state) with
      (TbxPortInterruptsRestore 1 0%Z
         (mkPort TBX_TRUE CsFree [EvInitialize; EvEnter 1; EvLeave 1])).
    apply (unmatched_restore_passes_assertion
             (mkPort TBX_TRUE CsFree [EvInitialize; EvEnter 1; EvLeave 1])
             1 0%Z); reflexivity.
  - apply (unmatched_restore_passes_assertion
             (mkPort TBX_TRUE (CsHeld 1 0) []) 2 0%Z); reflexivity.
Defined.

Lemma enter_calls_snoc (t : thread_id) (p : port_state) (f : Z)
  (cs : CRITICAL_SECTION) (e : event) :
  enter_calls t {| criticalSectionInitialized := f; criticalSection := cs;
                   api_log := api_log p ++ [e] |} =
  enter_calls t p + (if is_enter_by t e then 1 else 0).
Proof.
  unfold enter_calls. cbn [api_log].
  rewrite filter_app, length_app. f_equal.
  cbn. destruct (is_enter_by t e); reflexivity.
Qed.

Lemma leave_calls_snoc (t : thread_id) (p : port_state) (f : Z)
  (cs : CRITICAL_SECTION) (e : event) :
  leave_calls t {| criticalSectionInitialized := f; criticalSection := cs;
                   api_log := api_log p ++ [e] |} =
  leave_calls t p + (if is_leave_by t e then 1 else 0).
Proof.
  unfold leave_calls. cbn [api_log].
  rewrite filter_app, length_app. f_equal.
  cbn. destruct (is_leave_by t e); reflexivity.
Qed.

Lemma after_first_use_calls (t : thread_id) (s : port_state) :
  enter_calls t (after_first_use s) = enter_calls t s /\
  leave_calls t (after_first_use s) = leave_calls t s.
Proof.
  unfold after_first_use.
  destruct (Z.eqb (criticalSectionInitialized s) TBX_FALSE); [|auto].
  rewrite enter_calls_snoc, leave_calls_snoc. cbn. lia.
Qed.

(** The state in which Enter returns. *)
Lemma disable_returned_state (t : thread_id) (s : port_state) :
  port_inv s -> held_by_other t (criticalSection s) = false ->
  TbxPortInterruptsDisable t s =
  Returned 0%Z {| criticalSectionInitialized := TBX_TRUE;
                  criticalSection := CsHeld t (own_depth t (criticalSection s));
                  api_log := api_log (after_first_use s) ++ [EvEnter t] |}.
Proof.
  intros Hinv Hfree.
  destruct (disable_cases t s Hinv) as [[_ [cs' [He ->]]]|[Hh _]];
    [|congruence].
  do 2 f_equal. revert He. unfold after_first_use.
  destruct Hinv as [[Hf Hc]|[Hf Hc]]; rewrite Hf; cbn.
  - rewrite Hc. cbn. congruence.
  - destruct (criticalSection s) as [| |o n]; cbn in *; [congruence|congruence|].
    destruct (Nat.eqb_spec o t); [|discriminate]. subst o. congruence.
Qed.

Lemma own_depth_not_owner (t u : thread_id) (cs : CRITICAL_SECTION) :
  held_by_other t cs = false -> u <> t -> own_depth u cs = 0.
Proof.
  destruct cs as [| |o n]; cbn; try reflexivity.
  destruct (Nat.eqb_spec o t); [|discriminate]. subst o. intros _ Hne.
  destruct (Nat.eqb_spec t u); [congruence|reflexivity].
Qed.

Lemma run_call_balanced (c : call) (s : port_state) :
  port_inv s -> balanced s -> balanced (outcome_state (run_call c s)).
Proof.
  intros Hinv Hb. destruct c as [t0|t0 token].
  - rewrite run_call_Enter.
    destruct (held_by_other t0 (criticalSection s)) eqn:Hh.
    + destruct (disable_cases t0 s Hinv) as [[Hh' _]|[_ [_ ->]]];
        [congruence|exact Hb].
    + rewrite (disable_returned_state t0 s Hinv Hh). cbn [outcome_state].
      intros t. rewrite enter_calls_snoc, leave_calls_snoc.
      destruct (after_first_use_calls t s) as [-> ->].
      specialize (Hb t). cbn [criticalSection is_enter_by is_leave_by own_depth].
      destruct (Nat.eqb_spec t0 t) as [->|Hne].
      * lia.
      * rewrite (own_depth_not_owner t0 t _ Hh) in Hb by congruence. lia.
  - cbn [run_call]. rewrite TbxPortInterruptsRestore_eq.
    destruct (Z.eqb (criticalSectionInitialized s) TBX_TRUE); [|exact Hb].
    destruct (criticalSection s) as [| |o n] eqn:Hc; cbn; try exact Hb.
    destruct (Nat.eqb_spec o t0) as [->|Hne]; cbn [outcome_state]; [|exact Hb].
    intros t. rewrite enter_calls_snoc, leave_calls_snoc.
    specialize (Hb t). rewrite Hc in Hb.
    cbn [criticalSection is_enter_by is_leave_by own_depth] in *.
    destruct (Nat.eqb_spec t0 t) as [->|Hne].
    + destruct n; cbn [own_depth]; rewrite ?Nat.eqb_refl; lia.
    + destruct n; cbn [own_depth]; [lia|].
      destruct (Nat.eqb_spec t0 t); [congruence|lia].
Qed.

Lemma run_balanced (calls : list call) :
  forall s : port_state,
    port_inv s -> balanced s -> balanced (outcome_state (run calls s)).
Proof.
  induction calls as [|c calls IH]; intros s Hinv Hb; [exact Hb|].
  rewrite run_cons.
  pose proof (run_call_port_inv c s Hinv) as Hinv1.
  pose proof (run_call_balanced c s Hinv Hb) as Hb1.
  destruct (run_call c s); cbn [outcome_state] in *; auto.
Qed.

(** X3. Along every sequential call history from program start, however it
    ends, and for every thread: the [EnterCriticalSection] calls the thread
    has completed are its completed [LeaveCriticalSection] calls plus the
    levels of the object it owns. So a thread that owns nothing has left as
    often as it has entered. *)
Theorem enter_leave_calls_balance :
  forall (calls : list call) (t : thread_id),
    enter_calls t (outcome_state (run calls initial_state)) =
    leave_calls t (outcome_state (run calls initial_state)) +
    own_depth t (criticalSection (outcome_state (run calls initial_state))).
Proof.
  intros calls.
  apply (run_balanced calls initial_state); [left; split; reflexivity|].
  intros t. reflexivity.
Qed.

Lemma run_call_constructed_first (c : call) (s : port_state) :
  constructed_first s -> constructed_first (outcome_state (run_call c s)).
Proof.
  intros Hc.
  assert (Hkeep : forall cs e,
            criticalSectionInitialized s = TBX_TRUE ->
            constructed_first
              {| criticalSectionInitialized := criticalSectionInitialized s;
                 criticalSection := cs; api_log := api_log s ++ [e] |}).
  { intros cs e Hf. right. cbn. split; [exact Hf|].
    destruct Hc as [[Hf' _]|[_ [rest ->]]];
      [rewrite Hf in Hf'; discriminate|].
    eexists. reflexivity. }
  destruct c as [t|t token].
  - rewrite run_call_Enter, TbxPortInterruptsDisable_eq. cbn zeta.
    assert (Ha : constructed_first (after_first_use s) /\
                 criticalSectionInitialized (after_first_use s) = TBX_TRUE).
    { unfold after_first_use. destruct Hc as [[Hf Hl]|[Hf Hl]]; rewrite Hf; cbn.
      - split; [right; cbn; split; [reflexivity|]; rewrite Hl; eauto|reflexivity].
      - split; [right; auto|exact Hf]. }
    destruct Ha as [Ha Hf1].
    destruct (win_EnterCriticalSection t _); cbn [outcome_state]; auto.
    right. cbn. split; [exact Hf1|].
    destruct Ha as [[Hf' _]|[_ [rest ->]]];
      [rewrite Hf1 in Hf'; discriminate|]. eexists. reflexivity.
  - cbn [run_call]. rewrite TbxPortInterruptsRestore_eq.
    destruct (Z.eqb_spec (criticalSectionInitialized s) TBX_TRUE) as [Hf|Hf];
      [|exact Hc].
    destruct (win_LeaveCriticalSection t (criticalSection s));
      cbn [outcome_state]; auto.
Qed.

(** X4. At the end of every sequential call history from program start
    (each call run to its end, whatever that end is): if the flag is
    [TBX_FALSE] the log of Win32 calls is empty, and if the flag is
    [TBX_TRUE] the log begins with [InitializeCriticalSection]. So in the
    log of such a history no [EnterCriticalSection] or
    [LeaveCriticalSection] comes before the construction. Inside the very
    first Enter the construction call itself is made with the flag still
    [TBX_FALSE]; the statement is about the states between calls. *)
Theorem construction_precedes_use :
  forall calls : list call,
    constructed_first (outcome_state (run calls initial_state)).
Proof.
  intros calls.
  assert (H : forall s, constructed_first s ->
                        constructed_first (outcome_state (run calls s))).
  { induction calls as [|c calls IH]; intros s Hs; [exact Hs|].
    rewrite run_cons. pose proof (run_call_constructed_first c s Hs) as H1.
    destruct (run_call c s); cbn [outcome_state] in *; auto. }
  apply H. left. split; reflexivity.
Qed.

Lemma disable_blocked (t : thread_id) (s : port_state) :
  criticalSectionInitialized s = TBX_TRUE ->
  held_by_other t (criticalSection s) = true ->
  run_call (Enter t) s = Blocked s.
Proof.
  intros Hf Hh. rewrite run_call_Enter, TbxPortInterruptsDisable_eq.
  unfold after_first_use. rewrite Hf. cbn.
  destruct (criticalSection s) as [| |o n]; cbn in *; try discriminate.
  destruct (Nat.eqb o t); [discriminate|reflexivity].
Qed.

(** X5. The object passes to a waiting thread at the outermost Leave only.
    While thread [u] owns the object with [n] nested levels, after at most
    [n] Leave calls of [u] an Enter of another thread [t] still waits, and
    after [n + 1] of them it returns with [t] as the owner. *)
Theorem outermost_restore_hands_over :
  forall (s : port_state) (u t : thread_id) (n : nat)
         (tokens : list tTbxPortCpuSR),
    criticalSectionInitialized s = TBX_TRUE ->
    criticalSection s = CsHeld u n ->
    t <> u ->
    (length tokens <= n ->
     exists s',
       run (map (Leave u) tokens ++ [Enter t]) s = Blocked s' /\
       criticalSection s' = CsHeld u (n - length tokens)) /\
    (length tokens = S n ->
     exists s',
       run (map (Leave u) tokens ++ [Enter t]) s = Returned tt s' /\
       criticalSection s' = CsHeld t 0).
Proof.
  intros s u t n tokens Hf Hc Hne. split; intros Hlen.
  - destruct (leave_many u (S (n - length tokens)) tokens s Hf)
      as [s1 [Hr [Hf1 Hc1]]].
    { rewrite Hc. cbn. f_equal. lia. }
    cbn [release_to] in Hc1.
    exists s1. rewrite run_app, Hr, run_cons.
    rewrite (disable_blocked t s1 Hf1); [auto|].
    rewrite Hc1. cbn. destruct (Nat.eqb_spec u t); [congruence|reflexivity].
  - destruct (leave_many u 0 tokens s Hf) as [s1 [Hr [Hf1 Hc1]]].
    { rewrite Hc, Hlen. reflexivity. }
    cbn [release_to] in Hc1.
    assert (Hinv1 : port_inv s1) by (right; split; congruence).
    destruct (enter_once t s1 Hinv1) as [s2 [Hr2 [_ Hc2]]];
      [rewrite Hc1; reflexivity|].
    exists s2. rewrite run_app, Hr, run_cons, Hr2.
    split; [reflexivity|]. rewrite Hc2, Hc1. reflexivity.
Qed.

Lemma outermost_restore_hands_over_witness :
  (exists s',
     run (map (Leave 1) [0%Z; 0%Z] ++ [Enter 2])
       (mkPort TBX_TRUE (CsHeld 1 2) []) = Blocked s' /\
     criticalSection s' = CsHeld 1 0) /\
  (exists s',
     run (map (Leave 1) [0%Z; 0%Z; 0%Z] ++ [Enter 2])
       (mkPort TBX_TRUE (CsHeld 1 2) []) = Returned tt s' /\
     criticalSection s' = CsHeld 2 0).
Proof.
  split.
  - apply (proj1 (outermost_restore_hands_over
                    (mkPort TBX_TRUE (CsHeld 1 2) []) 1 2 2 [0%Z; 0%Z]
                    eq_refl eq_refl ltac:(discriminate))).
    cbn. lia.
  - apply (proj2 (outermost_restore_hands_over
                    (mkPort TBX_TRUE (CsHeld 1 2) []) 1 2 2 [0%Z; 0%Z; 0%Z]
                    eq_refl eq_refl ltac:(discriminate))).
    reflexivity.
Defined.

(** * Further properties under preemption *)

Lemma port_step_keeps {A : Type} (P : port_state -> Prop) (c : port A)
  (next : A -> thread) (th : thread) (m : shared) :
  (forall p, P p -> P (outcome_state (c p))) ->
  P (port_of m) -> P (port_of (snd (port_step c next th m))).
Proof.
  intros Hc Hm. unfold port_step. specialize (Hc (port_of m) Hm).
  destruct (c (port_of m)); cbn in *; assumption.
Qed.

Lemma api_call_keeps_flag (ev : event) (f : CRITICAL_SECTION -> api_result)
  (p : port_state) :
  criticalSectionInitialized (outcome_state (api_call ev f p)) =
  criticalSectionInitialized p.
Proof. unfold api_call. destruct (f (criticalSection p)); reflexivity. Qed.

Lemma assert_keeps_state (x : tTbxPortCpuSR) (p : port_state) :
  outcome_state ((TBX_UNUSED_ARG x ;;; flag <- load_flag ;;
                  TBX_ASSERT (Z.eqb flag TBX_TRUE)) p) = p.
Proof.
  unfold bind, TBX_UNUSED_ARG, ret, load_flag, TBX_ASSERT.
  destruct (Z.eqb (criticalSectionInitialized p) TBX_TRUE); reflexivity.
Qed.

Lemma api_call_keeps_constructed (ev : event)
  (f : CRITICAL_SECTION -> api_result) (p : port_state) :
  (forall cs cs', f cs = ApiDone cs' -> constructed cs' = true) ->
  constructed (criticalSection p) = true ->
  constructed (criticalSection (outcome_state (api_call ev f p))) = true.
Proof.
  intros Hf Hp. unfold api_call.
  destruct (f (criticalSection p)) eqn:E; cbn; eauto.
Qed.

Lemma win_calls_construct (t : thread_id) (cs cs' : CRITICAL_SECTION) :
  (win_InitializeCriticalSection cs = ApiDone cs' -> constructed cs' = true) /\
  (win_EnterCriticalSection t cs = ApiDone cs' -> constructed cs' = true) /\
  (win_LeaveCriticalSection t cs = ApiDone cs' -> constructed cs' = true).
Proof.
  split; [intros [= <-]; reflexivity|]. split; intros H.
  - apply win_EnterCriticalSection_constructed in H.
    destruct cs'; [congruence|reflexivity..].
  - apply win_LeaveCriticalSection_constructed in H as [_ H].
    destruct cs'; [congruence|reflexivity..].
Qed.

Lemma step_keeps_flag (t : thread_id) (c : config) :
  criticalSectionInitialized (port_of (mem c)) = TBX_TRUE ->
  criticalSectionInitialized (port_of (mem (step t c))) = TBX_TRUE.
Proof.
  intros Hf. unfold step. destruct (threads c !! t) as [th|]; [|exact Hf].
  destruct (thread_step t th (mem c)) as [th' m'] eqn:Es. cbn [mem].
  change m' with (snd (th', m')). rewrite <- Es. clear Es th' m'.
  unfold thread_step.
  destruct (pc th); try exact Hf; try (destruct (todo th); exact Hf);
    (apply (port_step_keeps
              (fun p => criticalSectionInitialized p = TBX_TRUE));
     [|exact Hf]; intros p Hp);
    first [ reflexivity
          | rewrite assert_keeps_state; exact Hp
          | unfold EnterCriticalSection, LeaveCriticalSection;
            rewrite api_call_keeps_flag; exact Hp ].
Qed.

Lemma step_keeps_constructed (t : thread_id) (c : config) :
  constructed (criticalSection (port_of (mem c))) = true ->
  constructed (criticalSection (port_of (mem (step t c)))) = true.
Proof.
  intros Hf. unfold step. destruct (threads c !! t) as [th|]; [|exact Hf].
  destruct (thread_step t th (mem c)) as [th' m'] eqn:Es. cbn [mem].
  change m' with (snd (th', m')). rewrite <- Es. clear Es th' m'.
  unfold thread_step.
  destruct (pc th); try exact Hf; try (destruct (todo th); exact Hf);
    (apply (port_step_keeps
              (fun p => constructed (criticalSection p) = true));
     [|exact Hf]; intros p Hp);
    first [ exact Hp
          | rewrite assert_keeps_state; exact Hp
          | apply api_call_keeps_constructed; [|exact Hp];
            intros cs cs'; apply (win_calls_construct t) ].
Qed.

(** X6. Under preemption as well the flag and the object only go one way:
    from every configuration - any number of threads, each at any statement
    of the two port functions - and under every schedule, a flag that is
    [TBX_TRUE] stays [TBX_TRUE] and an initialized object stays
    initialized. *)
Theorem preemption_keeps_flag_and_object :
  forall (schedule : list thread_id) (c : config),
    (criticalSectionInitialized (port_of (mem c)) = TBX_TRUE ->
     criticalSectionInitialized (port_of (mem (exec schedule c))) = TBX_TRUE) /\
    (constructed (criticalSection (port_of (mem c))) = true ->
     constructed (criticalSection (port_of (mem (exec schedule c)))) = true).
Proof.
  induction schedule as [|t rest IH]; intros c; [cbn; auto|].
  cbn [exec]. destruct (IH (step t c)) as [IHf IHc].
  split; intros H.
  - apply IHf, step_keeps_flag, H.
  - apply IHc, step_keeps_constructed, H.
Qed.

Lemma preemption_keeps_flag_and_object_witness :
  criticalSectionInitialized
    (port_of (mem (exec race_schedule (start_config started_port 2 1)))) =
    TBX_TRUE /\
  constructed
    (criticalSection
       (port_of (mem (exec [0; 0; 0; 1; 1; 1; 1]
                        (start_config initial_state 2 1))))) = true.
Proof.
  split.
  - apply (proj1 (preemption_keeps_flag_and_object race_schedule
                    (start_config started_port 2 1))).
    reflexivity.
  - apply (proj2 (preemption_keeps_flag_and_object [1; 1; 1; 1]
                    (exec [0; 0; 0] (start_config initial_state 2 1)))).
    reflexivity.
Defined.

(** One statement of a listed thread, once the object is constructed: what
    it does to the module state, and that it moves the thread on unless the
    thread has finished or waits for another owner. *)
Lemma step_under_inv (total : nat) (c : config) (t : thread_id) (th : thread) :
  conc_inv total c -> threads c !! t = Some th ->
  exists th' m',
    step t c = {| mem := m'; threads := <[t := th']> (threads c) |} /\
    port_change t (port_of (mem c)) (port_of m') /\
    ((work th' < work th /\ pc th' <> pc th) \/
     (th' = th /\ m' = mem c /\
      (finished th = true \/
       (pc th = PcDisEnter /\
        held_by_other t (criticalSection (port_of (mem c))) = true)))).
Proof.
  intros Hinv Hl. unfold step. rewrite Hl.
  pose proof Hinv as [Hf [Hc [Hth _]]].
  pose proof (Hth t th Hl) as [Hpc [Hin [Hown Htmp]]].
  destruct c as [[p cnt] ths]. cbn [mem threads port_of counter] in *.
  destruct th as [l td res s0 tm]. cbn [pc tmp] in *.
  unfold thread_step. cbn [pc todo result sr tmp].
  destruct l; cbn [in_section] in *; try contradiction.
  - destruct td as [|k].
    + eexists _, _. split; [reflexivity|]. split; [left; reflexivity|].
      right. auto.
    + eexists _, _. split; [reflexivity|]. split; [left; reflexivity|].
      left. unfold work. cbn. split; [lia|discriminate].
  - rewrite port_step_eq. cbn [load_flag]. rewrite Hf.
    cbn [Z.eqb TBX_TRUE TBX_FALSE].
    eexists _, _. split; [reflexivity|]. split; [left; reflexivity|].
    left. unfold work. cbn. split; [lia|discriminate].
  - rewrite port_step_eq. unfold EnterCriticalSection, api_call.
    destruct (criticalSection p) as [| |o n] eqn:Ecs; [congruence| |];
      cbn [win_EnterCriticalSection].
    + eexists _, _. split; [reflexivity|]. split.
      * right. left. cbn [port_of]. split; [exact Ecs|reflexivity].
      * left. unfold work. cbn. split; [lia|discriminate].
    + destruct (Nat.eqb_spec o t) as [->|Hne].
      * specialize (Hown n eq_refl). discriminate.
      * eexists _, _. split; [reflexivity|]. split; [left; reflexivity|].
        right. split; [reflexivity|]. split; [reflexivity|]. right.
        split; [reflexivity|]. cbn.
        destruct (Nat.eqb_spec o t); [contradiction|reflexivity].
  - eexists _, _. split; [reflexivity|]. split; [left; reflexivity|].
    left. unfold work. cbn. split; [lia|discriminate].
  - eexists _, _. split; [reflexivity|]. split; [left; reflexivity|].
    left. unfold work. cbn. split; [lia|discriminate].
  - eexists _, _. split; [reflexivity|]. split; [left; reflexivity|].
    left. unfold work. cbn. split; [lia|discriminate].
  - rewrite port_step_eq.
    assert (Ha : (TBX_UNUSED_ARG s0 ;;; flag <- load_flag ;;
                  TBX_ASSERT (Z.eqb flag TBX_TRUE)) p = Returned tt p).
    { unfold bind, TBX_UNUSED_ARG, ret, load_flag, TBX_ASSERT.
      rewrite Hf. reflexivity. }
    rewrite Ha.
    eexists _, _. split; [reflexivity|]. split; [left; reflexivity|].
    left. unfold work. cbn. split; [lia|discriminate].
  - specialize (Hin eq_refl). rewrite port_step_eq.
    unfold LeaveCriticalSection, api_call. rewrite Hin.
    cbn [win_LeaveCriticalSection]. rewrite Nat.eqb_refl.
    eexists _, _. split; [reflexivity|]. split.
    + right. right. cbn [port_of]. split; [exact Hin|reflexivity].
    + left. unfold work. cbn. split; [lia|discriminate].
Qed.

Lemma exec_app (s1 s2 : list thread_id) (c : config) :
  exec (s1 ++ s2) c = exec s2 (exec s1 c).
Proof.
  revert c. induction s1 as [|t s1 IH]; intros c; [reflexivity|].
  cbn [app exec]. apply IH.
Qed.

Lemma port_change_initialize_calls (t : thread_id) (p p' : port_state) :
  port_change t p p' -> initialize_calls p' = initialize_calls p.
Proof.
  intros [->|[[_ ->]|[_ ->]]]; [reflexivity| |];
    rewrite initialize_calls_snoc; cbn; lia.
Qed.

Lemma step_initialize_calls (total : nat) (t : thread_id) (c : config) :
  conc_inv total c ->
  initialize_calls (port_of (mem (step t c))) =
  initialize_calls (port_of (mem c)).
Proof.
  intros Hinv. destruct (threads c !! t) as [th|] eqn:Hl.
  - destruct (step_under_inv total c t th Hinv Hl) as [th' [m' [-> [Hp _]]]].
    cbn [mem]. eapply port_change_initialize_calls; eauto.
  - unfold step. rewrite Hl. reflexivity.
Qed.

(** X7. Once the object is constructed and free, no thread constructs it
    again, whatever the number of threads and the schedule: the number of
    [InitializeCriticalSection] calls stays what it was. *)
Theorem constructed_object_never_reinitialized :
  forall (p : port_state) (N M : nat) (schedule : list thread_id),
    criticalSectionInitialized p = TBX_TRUE ->
    criticalSection p = CsFree ->
    initialize_calls (port_of (mem (exec schedule (start_config p N M)))) =
    initialize_calls p.
Proof.
  intros p N M schedule Hf Hc.
  assert (H : forall c, conc_inv (N * M) c ->
                initialize_calls (port_of (mem (exec schedule c))) =
                initialize_calls (port_of (mem c))).
  { induction schedule as [|t rest IH]; intros c Hinv; [reflexivity|].
    cbn [exec]. rewrite IH by (apply step_conc_inv, Hinv).
    eapply step_initialize_calls; eauto. }
  rewrite H by (apply start_conc_inv; assumption). reflexivity.
Qed.

Lemma constructed_object_never_reinitialized_witness :
  initialize_calls
    (port_of (mem (exec (alternate 40) (start_config started_port 2 2)))) = 1.
Proof.
  apply (constructed_object_never_reinitialized started_port 2 2 (alternate 40));
    reflexivity.
Defined.

Lemma start_owner_listed (p : port_state) (N M : nat) :
  criticalSection p = CsFree -> owner_listed (start_config p N M).
Proof.
  intros Hc o n. unfold start_config. cbn [mem port_of]. rewrite Hc.
  discriminate.
Qed.

Lemma step_owner_listed (total : nat) (t : thread_id) (c : config) :
  conc_inv total c -> owner_listed c -> owner_listed (step t c).
Proof.
  intros Hinv Ho. destruct (threads c !! t) as [th|] eqn:Hl.
  - destruct (step_under_inv total c t th Hinv Hl) as [th' [m' [-> [Hp _]]]].
    intros o n. cbn [mem threads]. rewrite length_insert.
    destruct Hp as [->|[[_ ->]|[_ ->]]]; cbn [criticalSection].
    + apply Ho.
    + intros [= <- _]. eapply lookup_lt_Some; eauto.
    + discriminate.
  - unfold step. rewrite Hl. exact Ho.
Qed.

Lemma exec_owner_listed (total : nat) (schedule : list thread_id) :
  forall c, conc_inv total c -> owner_listed c ->
            owner_listed (exec schedule c).
Proof.
  induction schedule as [|t rest IH]; intros c Hinv Ho; [exact Ho|].
  cbn [exec]. apply IH; [apply step_conc_inv, Hinv|].
  eapply step_owner_listed; eauto.
Qed.

Lemma unfinished_thread (ths : list thread) :
  forallb finished ths = false ->
  exists i th, ths !! i = Some th /\ finished th = false.
Proof.
  induction ths as [|x ths IH]; [discriminate|].
  cbn [forallb]. destruct (finished x) eqn:Ex.
  - cbn. intros H. destruct (IH H) as [i [th [Hi Hth]]].
    exists (S i), th. auto.
  - intros _. exists 0, x. auto.
Qed.

Lemma sum_list_with_insert (f : thread -> nat) (ths : list thread) :
  forall (t : thread_id) (th th' : thread),
    ths !! t = Some th ->
    sum_list_with f (<[t := th']> ths) + f th = sum_list_with f ths + f th'.
Proof.
  induction ths as [|x ths IH]; intros t th th' Hl; [discriminate|].
  destruct t as [|t]; cbn in *.
  - injection Hl as ->. lia.
  - rewrite <- !Nat.add_assoc. f_equal. exact (IH t th th' Hl).
Qed.

(** Some thread can execute a statement unless all have finished. *)
Lemma progress (total : nat) (c : config) :
  conc_inv total c -> owner_listed c -> all_finished c = false ->
  exists t th th',
    threads c !! t = Some th /\ threads (step t c) !! t = Some th' /\
    pc th' <> pc th /\ total_work (step t c) < total_work c.
Proof.
  intros Hinv Ho Hfin.
  assert (Hrun : exists t th, threads c !! t = Some th /\ finished th = false /\
                   (pc th = PcDisEnter ->
                    held_by_other t (criticalSection (port_of (mem c))) = false)).
  { pose proof Hinv as [_ [Hc [Hth _]]].
    destruct (criticalSection (port_of (mem c))) as [| |o n] eqn:Ecs;
      [congruence| |].
    - destruct (unfinished_thread _ Hfin) as [i [th [Hi Hu]]].
      exists i, th. auto.
    - assert (Hlt : o < length (threads c)) by (eapply Ho; eauto).
      destruct (lookup_lt_is_Some_2 _ _ Hlt) as [th Hl].
      exists o, th. split; [exact Hl|].
      specialize (Hth o th Hl).
      destruct Hth as [_ [_ [Hown _]]]. specialize (Hown n eq_refl).
      split.
      + unfold finished. destruct (pc th); try discriminate; reflexivity.
      + intros E. rewrite E in Hown. discriminate. }
  destruct Hrun as [t [th [Hl [Hu Hw]]]].
  destruct (step_under_inv total c t th Hinv Hl)
    as [th' [m' [Hs [_ [[Hlt Hpc]|[_ [_ [Hd|[Hd1 Hd2]]]]]]]]].
  - exists t, th, th'. split; [exact Hl|]. rewrite Hs. cbn [threads].
    split; [apply list_lookup_insert_eq; eapply lookup_lt_Some; eauto|].
    split; [exact Hpc|]. unfold total_work. cbn [threads].
    pose proof (sum_list_with_insert work (threads c) t th th' Hl). lia.
  - congruence.
  - rewrite (Hw Hd1) in Hd2. discriminate.
Qed.

(** X8. Once the object is constructed and free, threads that increment the
    counter inside Enter/Leave sections never deadlock: in every
    configuration they reach, unless all threads have finished, some thread
    can execute its next statement. *)
Theorem sections_never_deadlock :
  forall (p : port_state) (N M : nat) (schedule : list thread_id),
    criticalSectionInitialized p = TBX_TRUE ->
    criticalSection p = CsFree ->
    all_finished (exec schedule (start_config p N M)) = false ->
    exists t th th',
      threads (exec schedule (start_config p N M)) !! t = Some th /\
      threads (step t (exec schedule (start_config p N M))) !! t = Some th' /\
      pc th' <> pc th.
Proof.
  intros p N M schedule Hf Hc Hfin.
  destruct (progress (N * M) (exec schedule (start_config p N M)))
    as [t [th [th' [H1 [H2 [H3 _]]]]]].
  - apply exec_conc_inv, start_conc_inv; assumption.
  - eapply exec_owner_listed;
      [apply start_conc_inv; assumption|apply start_owner_listed, Hc].
  - exact Hfin.
  - exists t, th, th'. auto.
Qed.

Lemma sections_never_deadlock_witness :
  exists t th th',
    threads (exec [0; 0; 0; 1; 1; 1] (start_config started_port 2 1)) !! t =
      Some th /\
    threads (step t (exec [0; 0; 0; 1; 1; 1] (start_config started_port 2 1)))
      !! t = Some th' /\
    pc th' <> pc th.
Proof.
  apply (sections_never_deadlock started_port 2 1 [0; 0; 0; 1; 1; 1]);
    reflexivity.
Defined.

Lemma completion (total : nat) (k : nat) :
  forall c : config,
    total_work c <= k -> conc_inv total c -> owner_listed c ->
    exists rest, all_finished (exec rest c) = true /\
                 conc_inv total (exec rest c).
Proof.
  induction k as [|k IH]; intros c Hk Hinv Ho;
    destruct (all_finished c) eqn:Hfin;
    try (exists []; split; [exact Hfin|exact Hinv]);
    destruct (progress total c Hinv Ho Hfin) as [t [_ [_ [_ [_ [_ Hlt]]]]]].
  - lia.
  - destruct (IH (step t c)) as [rest [Hr Hi]];
      [lia|apply step_conc_inv, Hinv|eapply step_owner_listed; eauto|].
    exists (t :: rest). auto.
Qed.

(** X9. Once the object is constructed and free, every run of [N] threads
    that increment the counter [M] times each inside Enter/Leave sections
    can be continued until all threads have finished, and then the counter
    reads [N * M]. *)
Theorem sections_can_always_complete :
  forall (p : port_state) (N M : nat) (schedule : list thread_id),
    criticalSectionInitialized p = TBX_TRUE ->
    criticalSection p = CsFree ->
    exists rest,
      all_finished (exec (schedule ++ rest) (start_config p N M)) = true /\
      counter (mem (exec (schedule ++ rest) (start_config p N M))) = N * M.
Proof.
  intros p N M schedule Hf Hc.
  destruct (completion (N * M)
              (total_work (exec schedule (start_config p N M)))
              (exec schedule (start_config p N M)))
    as [rest [Hfin Hinv]].
  - lia.
  - apply exec_conc_inv, start_conc_inv; assumption.
  - eapply exec_owner_listed;
      [apply start_conc_inv; assumption|apply start_owner_listed, Hc].
  - exists rest. rewrite exec_app. split; [exact Hfin|].
    destruct Hinv as [_ [_ [_ Hsum]]]. unfold all_finished in Hfin.
    rewrite (total_pending_finished _ Hfin) in Hsum. lia.
Qed.

Lemma sections_can_always_complete_witness :
  exists rest,
    all_finished
      (exec ([0; 1; 1; 0] ++ rest) (start_config started_port 2 3)) = true /\
    counter (mem (exec ([0; 1; 1; 0] ++ rest) (start_config started_port 2 3))) =
      2 * 3.
Proof.
  apply (sections_can_always_complete started_port 2 3 [0; 1; 1; 0]);
    reflexivity.
Defined.

(** * Ownership along paired histories *)

(** X10. Along a history in which every Leave of a thread closes a section
    that thread has open, the object keeps count of the open sections: when
    the history returns, the owner of the object is the one thread with open
    sections and its recursion count is their number; when every section
    has been closed the object is owned by nobody. *)
Theorem ownership_follows_open_sections :
  forall (calls : list call) (depth : thread_id -> nat) (s s' : port_state),
    port_inv s -> depth_matches depth (criticalSection s) ->
    well_paired depth calls = true ->
    run calls s = Returned tt s' ->
    port_inv s' /\
    depth_matches (depth_after depth calls) (criticalSection s') /\
    ((forall u, depth_after depth calls u = 0) ->
     acquisition (criticalSection s') = None).
Proof.
  intros calls depth s s' Hinv Hd Hwp Hrun.
  assert (H : port_inv s' /\
              depth_matches (depth_after depth calls) (criticalSection s')).
  { revert depth s Hinv Hd Hwp Hrun.
    induction calls as [|c calls IH]; intros depth s Hinv Hd Hwp Hrun.
    - cbn in Hrun. injection Hrun as <-. auto.
    - rewrite run_cons in Hrun. destruct c as [t|t token];
        cbn [well_paired depth_after] in *.
      + destruct (enter_paired t depth s Hinv Hd) as [[s1 [Hr [Hinv1 Hd1]]]|Hr];
          rewrite Hr in Hrun; [eauto|discriminate].
      + destruct (depth t) as [|k] eqn:Hk; [discriminate|].
        destruct (leave_paired t token depth s Hinv Hd) as [s1 [Hr [Hinv1 Hd1]]];
          [congruence|]. rewrite Hr in Hrun. eauto. }
  destruct H as [Hinv' Hd']. split; [exact Hinv'|]. split; [exact Hd'|].
  intros Hzero. destruct (criticalSection s') as [| |o n]; try reflexivity.
  destruct Hd' as [Ho _]. rewrite Hzero in Ho. discriminate.
Qed.

Lemma ownership_follows_open_sections_witness :
  exists s',
    run [Enter 1; Enter 1; Leave 1 0%Z; Leave 1 0%Z; Enter 2] initial_state =
      Returned tt s' /\
    depth_matches
      (depth_after (fun _ => 0)
         [Enter 1; Enter 1; Leave 1 0%Z; Leave 1 0%Z; Enter 2])
      (criticalSection s').
Proof.
  eexists. split; [reflexivity|].
  apply (ownership_follows_open_sections
           [Enter 1; Enter 1; Leave 1 0%Z; Leave 1 0%Z; Enter 2]
           (fun _ => 0) initial_state).
  - left. split; reflexivity.
  - intros u. reflexivity.
  - reflexivity.
  - reflexivity.
Defined.

(** * Mutual exclusion from program start *)

Lemma sum_list_with_bound (f : thread -> nat) (ths : list thread) :
  forall (i : nat) (th : thread),
    ths !! i = Some th -> f th <= sum_list_with f ths.
Proof.
  induction ths as [|x ths IH]; intros i th Hi; [discriminate|].
  destruct i as [|i]; cbn in *.
  - injection Hi as ->. lia.
  - specialize (IH i th Hi). lia.
Qed.

Lemma sum_list_with_two (f : thread -> nat) (ths : list thread) :
  forall (i j : nat) (thi thj : thread),
    i <> j -> ths !! i = Some thi -> ths !! j = Some thj ->
    f thi + f thj <= sum_list_with f ths.
Proof.
  induction ths as [|x ths IH]; intros i j thi thj Hne Hi Hj; [discriminate|].
  destruct i as [|i], j as [|j]; cbn in *; [congruence| | |].
  - injection Hi as ->.
    pose proof (sum_list_with_bound f ths j thj Hj). lia.
  - injection Hj as ->.
    pose proof (sum_list_with_bound f ths i thi Hi). lia.
  - assert (Hne' : i <> j) by congruence.
    specialize (IH i j thi thj Hne' Hi Hj). lia.
Qed.

Lemma sum_list_with_zero (f : thread -> nat) (ths : list thread) :
  (forall i th, ths !! i = Some th -> f th = 0) -> sum_list_with f ths = 0.
Proof.
  induction ths as [|x ths IH]; intros H; [reflexivity|].
  cbn. rewrite (H 0 x eq_refl), IH; [reflexivity|].
  intros i th Hi. apply (H (S i) th Hi).
Qed.

(** With one thread inside the first-use branch, no other is. *)
Lemma only_constructor (c : config) (t j : thread_id) (th thj : thread) :
  constructors c <= 1 ->
  threads c !! t = Some th -> constructing th = true ->
  threads c !! j = Some thj -> j <> t ->
  constructing thj = false.
Proof.
  intros Hone Ht Hc Hj Hne. unfold constructors in Hone.
  pose proof (sum_list_with_two
                (fun th => if constructing th then 1 else 0)
                (threads c) t j th thj (not_eq_sym Hne) Ht Hj) as H.
  cbn beta in H. rewrite Hc in H.
  destruct (constructing thj); [lia|reflexivity].
Qed.

Lemma pre_inv_update (total : nat) (m : shared) (ths : list thread)
  (t : thread_id) (th th' : thread) (m' : shared) :
  pre_inv total {| mem := m; threads := ths |} ->
  ths !! t = Some th ->
  criticalSectionInitialized (port_of m') = TBX_FALSE ->
  pre_thread (criticalSection (port_of m')) th' ->
  (forall j thj, j <> t -> ths !! j = Some thj ->
     pre_thread (criticalSection (port_of m')) thj) ->
  counter m' + pending th' = counter m + pending th ->
  pre_inv total {| mem := m'; threads := <[t := th']> ths |}.
Proof.
  intros [Hf [Hth Hsum]] Hl Hf' Ht Hothers Hcnt.
  cbn [mem threads] in *.
  split; [exact Hf'|]. split.
  - cbn [mem threads]. intros i thi Hi.
    destruct (Nat.eq_dec i t) as [->|Hne].
    + rewrite list_lookup_insert_eq in Hi by (eapply lookup_lt_Some; eauto).
      injection Hi as <-. exact Ht.
    + rewrite list_lookup_insert_ne in Hi by congruence. eauto.
  - cbn [mem threads].
    pose proof (total_pending_insert ths t th th' Hl). lia.
Qed.

(** A thread that has not got past the first-use branch and is not inside
    it is in order once the object is constructed and free. *)
Lemma pre_thread_thread_inv (cs : CRITICAL_SECTION) (cnt : nat)
  (j : thread_id) (thj : thread) :
  pre_thread cs thj -> constructing thj = false ->
  thread_inv CsFree cnt j thj.
Proof.
  unfold pre_thread, constructing, thread_inv. intros Hp Hc.
  destruct (pc thj); try contradiction; try discriminate;
    repeat split; cbn; intros; discriminate.
Qed.

(** One statement while the flag is still [TBX_FALSE] and at most one thread
    is inside the first-use branch: the flag stays [TBX_FALSE], or that
    thread stores [TBX_TRUE] and the object is constructed and free. *)
Lemma step_first_use (total : nat) (t : thread_id) (c : config) :
  pre_inv total c -> constructors c <= 1 ->
  pre_inv total (step t c) \/ conc_inv total (step t c).
Proof.
  intros Hinv Hone. unfold step.
  destruct (threads c !! t) as [th|] eqn:Hl; [|left; exact Hinv].
  pose proof Hinv as [Hf [Hth Hsum]].
  pose proof (Hth t th Hl) as Ht.
  destruct c as [[p cnt] ths]. cbn [mem threads port_of counter] in *.
  destruct th as [l td res s0 tm]. unfold pre_thread in Ht. cbn [pc] in Ht.
  unfold thread_step. cbn [pc todo result sr tmp].
  destruct l; try contradiction.
  - (* loop head *)
    left. destruct td as [|k];
      (eapply pre_inv_update;
       [ exact Hinv | exact Hl | exact Hf | exact I
       | cbn [port_of]; eauto | pending_now ]).
  - (* the test of the flag finds it clear *)
    left. rewrite port_step_eq. cbn [load_flag]. rewrite Hf.
    cbn [Z.eqb TBX_FALSE].
    eapply pre_inv_update;
      [ exact Hinv | exact Hl | exact Hf | exact I
      | cbn [port_of]; eauto | pending_now ].
  - (* InitializeCriticalSection *)
    left. rewrite port_step_eq.
    unfold InitializeCriticalSection, api_call. cbn [win_InitializeCriticalSection].
    eapply pre_inv_update;
      [ exact Hinv | exact Hl | exact Hf | reflexivity | | pending_now ].
    intros j thj Hne Hj. cbn [port_of criticalSection].
    specialize (Hth j thj Hj). unfold pre_thread in *.
    destruct (pc thj); auto.
  - (* criticalSectionInitialized = TBX_TRUE *)
    right. rewrite port_step_eq. cbn [store_flag].
    split; [reflexivity|]. cbn [mem threads port_of counter criticalSection].
    rewrite Ht. split; [discriminate|]. split.
    + intros i thi Hi. destruct (Nat.eq_dec i t) as [->|Hne].
      * rewrite list_lookup_insert_eq in Hi by (eapply lookup_lt_Some; eauto).
        injection Hi as <-. repeat split; cbn; intros; discriminate.
      * rewrite list_lookup_insert_ne in Hi by congruence.
        eapply pre_thread_thread_inv; [eauto|].
        eapply (only_constructor
                  {| mem := {| port_of := p; counter := cnt |}; threads := ths |}
                  t i); eauto.
    + pose proof (total_pending_insert ths t _
                    (goto PcDisEnter
                       {| pc := PcDisSet; todo := td; result := res;
                          sr := s0; tmp := tm |}) Hl) as Hp.
      unfold pending in Hp at 1 2. cbn [pc todo owes goto] in Hp. lia.
Qed.

Lemma conc_inv_no_constructor (total : nat) (c : config) :
  conc_inv total c -> constructors c = 0.
Proof.
  intros [_ [_ [Hth _]]]. apply sum_list_with_zero. intros i th Hi.
  destruct (Hth i th Hi) as [Hpc _]. unfold constructing.
  destruct (pc th); try contradiction; reflexivity.
Qed.

(** After the construction every schedule keeps out of the first-use
    branch. *)
Lemma serial_after_construction (total : nat) (schedule : list thread_id) :
  forall c, conc_inv total c -> serial_first_use schedule c = true.
Proof.
  induction schedule as [|t rest IH]; intros c Hinv; cbn [serial_first_use];
    rewrite (conc_inv_no_constructor total c Hinv); cbn; [reflexivity|].
  apply IH, step_conc_inv, Hinv.
Qed.

Lemma serial_first_use_app (s1 s2 : list thread_id) :
  forall c, serial_first_use (s1 ++ s2) c =
            serial_first_use s1 c && serial_first_use s2 (exec s1 c).
Proof.
  induction s1 as [|t s1 IH]; intros c; cbn [app serial_first_use exec].
  - destruct s2; cbn [serial_first_use];
      destruct (Nat.leb (constructors c) 1); reflexivity.
  - rewrite IH, andb_assoc. reflexivity.
Qed.

Lemma exec_first_use (total : nat) (schedule : list thread_id) :
  forall c,
    pre_inv total c \/ conc_inv total c ->
    serial_first_use schedule c = true ->
    pre_inv total (exec schedule c) \/ conc_inv total (exec schedule c).
Proof.
  induction schedule as [|t rest IH]; intros c Hinv Hser; [exact Hinv|].
  cbn [serial_first_use] in Hser. apply andb_true_iff in Hser as [Hone Hrest].
  apply Nat.leb_le in Hone. cbn [exec]. apply IH; [|exact Hrest].
  destruct Hinv as [Hpre|Hconc].
  - apply step_first_use; assumption.
  - right. apply step_conc_inv, Hconc.
Qed.

Lemma start_first_use (p : port_state) (N M : nat) :
  idle_port p ->
  pre_inv (N * M) (start_config p N M) \/ conc_inv (N * M) (start_config p N M).
Proof.
  intros [[Hf Hc]|[Hf Hc]]; [left|right; apply start_conc_inv; assumption].
  unfold start_config, pre_inv. cbn [mem threads port_of counter].
  split; [exact Hf|]. split.
  - intros i th Hi. apply lookup_replicate in Hi as [-> _]. exact I.
  - rewrite total_pending_replicate. reflexivity.
Qed.

(** C1 (amended). From program start, or from a constructed and free object,
    and under every schedule that never has two threads inside the
    first-use branch of Enter together (none tests the flag while another,
    having found it [TBX_FALSE], has not yet stored [TBX_TRUE]): [N] threads
    that each increment the counter [M] times inside Enter/Leave sections
    exclude each other. No two of them are between Enter and Leave at once,
    a thread about to store still holds the counter value it read, no
    thread stops in the assertion or a misuse, the counter and the
    increments still owed add up to [N * M], and when all threads have
    finished the counter reads [N * M]. *)
Theorem sections_exclude_without_first_use_race :
  forall (p : port_state) (N M : nat) (schedule : list thread_id),
    idle_port p ->
    serial_first_use schedule (start_config p N M) = true ->
    mutual_exclusion (exec schedule (start_config p N M)) /\
    (forall i th,
       threads (exec schedule (start_config p N M)) !! i = Some th ->
       pc th <> PcStopped /\
       (pc th = PcWrite ->
        tmp th = counter (mem (exec schedule (start_config p N M))))) /\
    counter (mem (exec schedule (start_config p N M))) +
      total_pending (threads (exec schedule (start_config p N M))) = N * M /\
    (all_finished (exec schedule (start_config p N M)) = true ->
     counter (mem (exec schedule (start_config p N M))) = N * M).
Proof.
  intros p N M schedule Hidle Hser.
  pose proof (exec_first_use (N * M) schedule (start_config p N M)
                (start_first_use p N M Hidle) Hser) as Hinv.
  assert (Hsum : counter (mem (exec schedule (start_config p N M))) +
                 total_pending (threads (exec schedule (start_config p N M))) =
                 N * M)
    by (destruct Hinv as [[_ [_ H]]|[_ [_ [_ H]]]]; exact H).
  split; [|split; [|split; [exact Hsum|]]].
  - destruct Hinv as [[_ [Hth _]]|Hconc];
      [|eapply conc_inv_mutual_exclusion; eauto].
    intros i j thi thj Hi _ Hini _. specialize (Hth i thi Hi).
    unfold pre_thread in Hth. destruct (pc thi); try contradiction; discriminate.
  - intros i th Hi. destruct Hinv as [[_ [Hth _]]|[_ [_ [Hth _]]]].
    + specialize (Hth i th Hi). unfold pre_thread in Hth.
      destruct (pc th); try contradiction; split; intros; discriminate.
    + destruct (Hth i th Hi) as [Hpc [_ [_ Htmp]]].
      split; [|exact Htmp]. intros E. rewrite E in Hpc. exact Hpc.
  - intros Hfin. unfold all_finished in Hfin.
    rewrite (total_pending_finished _ Hfin) in Hsum. lia.
Qed.

Lemma sections_exclude_without_first_use_race_witness :
  all_finished (exec first_enter_alone (start_config initial_state 2 2)) =
    true /\
  counter (mem (exec first_enter_alone (start_config initial_state 2 2))) =
    2 * 2.
Proof.
  assert (Hfin : all_finished
                   (exec first_enter_alone (start_config initial_state 2 2)) =
                 true) by reflexivity.
  split; [exact Hfin|].
  refine (proj2 (proj2 (proj2
    (sections_exclude_without_first_use_race initial_state 2 2
       first_enter_alone _ _))) Hfin).
  - left. split; reflexivity.
  - reflexivity.
Defined.

(** The schedule of the race is not of that kind, and after the first Enter
    of one thread every continuation is. *)
Example race_is_not_serial :
  serial_first_use race_schedule (start_config initial_state 2 1) = false.
Proof. reflexivity. Qed.

Lemma serial_after_first_enter (rest : list thread_id) :
  serial_first_use ([0; 0; 0; 0; 0] ++ rest) (start_config initial_state 2 1) =
  true.
Proof.
  rewrite serial_first_use_app. apply andb_true_iff. split; [reflexivity|].
  apply (serial_after_construction (2 * 1)).
  destruct (exec_first_use (2 * 1) [0; 0; 0; 0; 0]
              (start_config initial_state 2 1)) as [[Hf _]|Hconc];
    [apply start_first_use; left; split; reflexivity | reflexivity | | exact Hconc].
  discriminate Hf.
Qed.

(** From a constructed and free object every schedule is of that kind. *)
Lemma serial_once_constructed (p : port_state) (N M : nat)
  (schedule : list thread_id) :
  criticalSectionInitialized p = TBX_TRUE ->
  criticalSection p = CsFree ->
  serial_first_use schedule (start_config p N M) = true.
Proof.
  intros Hf Hc. apply (serial_after_construction (N * M)).
  apply start_conc_inv; assumption.
Qed.
